(** * GCE metadata processor (plugins/processors/gce/gce.go)

    A shallow embedding of the processor that attaches Google Compute Engine
    metadata to metrics as tags, and of the dispatcher it hands its
    enrichment function to.

    Conventions.
    - A Go [error] is modelled by its message; [option error] is an error
      value that may be [nil].
    - A call that may panic yields an [Outcome]: [Returned v] or [Panicked p].
    - Code with effects (the metric mutated in place, the requests sent to
      the metadata server, the lines printed) runs in the monad [M], a state
      and panic monad over [World].
    - Go's [for ... range] over a map visits the keys in an unspecified
      order; the order is taken from the environment ([rangeKeys]). *)

From Stdlib Require Import ZArith String Ascii Lia.
From stdpp Require Import base option list gmap sets strings.

Local Open Scope string_scope.
Local Open Scope list_scope.
Local Open Scope nat_scope.

#[local] Set Warnings "-clear-no-such-hyp".

(** ** Go values the code relies on *)

Definition error := string.

Inductive PanicValue :=
| PanicErr (err : error)                 (* panic(err) *)
| IndexOutOfRange (index len : nat)      (* index out of range [index] with length len *)
| NilPointerDereference                  (* method called through a nil pointer *)
| NilInterfaceCall.                      (* method called on a nil interface value *)

Inductive Outcome (A : Type) :=
| Returned (a : A)
| Panicked (p : PanicValue).
Arguments Returned {A} a.
Arguments Panicked {A} p.

Definition returns {A} (o : Outcome A) : Prop := ∃ a, o = Returned a.

(** package strings *)
Module GoStrings.

(** [splitByte sep s cur]: the pieces of [cur ++ s] cut at every [sep] byte
    of [s]. *)
Fixpoint splitByte (sep : ascii) (s : string) (cur : string) : list string :=
  match s with
  | EmptyString => [cur]
  | String c rest =>
      if Ascii.eqb c sep then cur :: splitByte sep rest EmptyString
      else splitByte sep rest (cur +:+ String c EmptyString)
  end.

(** [strings.Split(s, sep)] for a separator of one byte, the only use the
    processor makes of it. Every occurrence of the separator cuts, so the
    result has one more element than [s] has separators. *)
Definition Split (s : string) (sep : ascii) : list string :=
  splitByte sep s EmptyString.

(** [strings.Join(elems, sep)] *)
Definition Join (elems : list string) (sep : string) : string :=
  String.concat sep elems.

Fixpoint countByte (sep : ascii) (s : string) : nat :=
  match s with
  | EmptyString => 0
  | String c rest => (if Ascii.eqb c sep then 1 else 0) + countByte sep rest
  end.

End GoStrings.

(** package context *)
Inductive Context :=
| Background
| WithTimeoutCtx (parent : Context) (timeout : Z).

Definition CancelFunc := unit.

(** [context.WithTimeout(parent, d)] returns the derived context and its
    cancel function. *)
Definition WithTimeout (parent : Context) (d : Z) : Context * CancelFunc :=
  (WithTimeoutCtx parent d, tt).

(** The time a context leaves to the work done under it; [None] is no bound. *)
Fixpoint deadline (ctx : Context) : option Z :=
  match ctx with
  | Background => None
  | WithTimeoutCtx parent d =>
      match deadline parent with
      | None => Some d
      | Some d' => Some (Z.min d d')
      end
  end.

(** ** telegraf.Metric *)

Inductive FieldValue :=
| FInt (i : Z)
| FString (s : string)
| FBool (b : bool).

(** Modelled from the spec: [telegraf.Metric] and its [AddTag] method are
    declared in another package of the repository. A record is a name, tags
    keyed by tag name, fields and a timestamp; the enrichment function only
    adds to it. *)
Record Metric := mkMetric {
  m_name : string;
  m_tags : gmap string string;
  m_fields : gmap string FieldValue;
  m_time : Z;
}.

(** Modelled from the spec: [Metric.AddTag(key, value)], of the package
    that declares the metric, sets the tag [key] to [value] and leaves the
    rest of the record alone. *)
Definition AddTag (key value : string) (m : Metric) : Metric :=
  {| m_name := m_name m;
     m_tags := <[key := value]> (m_tags m);
     m_fields := m_fields m;
     m_time := m_time m |}.

(** ** cloud.google.com/go/compute/metadata *)

Inductive Endpoint := EpZone | EpInstanceTags | EpInstanceName | EpHostname.

(** One request to the metadata server and the context it ran under. *)
Record LookupCall := mkCall {
  call_endpoint : Endpoint;
  call_ctx : Context;
}.

(** What the metadata server answers to each of the four requests, as the Go
    pairs (value, err). *)
Record Client := mkClient {
  resp_zone : string * option error;
  resp_tags : list string * option error;
  resp_name : string * option error;
  resp_hostname : string * option error;
}.

(** ** Effects *)

Record World := mkWorld {
  w_metric : Metric;             (* the metric behind the pointer handed to asyncAdd *)
  w_calls : list LookupCall;     (* requests sent so far, oldest first *)
  w_stdout : list string;        (* lines printed so far, oldest first *)
}.

Definition M (A : Type) : Type := World → Outcome A * World.

#[global] Instance M_ret : MRet M := λ A a w, (Returned a, w).
#[global] Instance M_bind : MBind M := λ A B f m w,
  match m w with
  | (Returned a, w') => f a w'
  | (Panicked p, w') => (Panicked p, w')
  end.

Definition panic {A} (p : PanicValue) : M A := λ w, (Panicked p, w).

Definition getMetric : M Metric := λ w, (Returned (w_metric w), w).

Definition modifyMetric (f : Metric → Metric) : M unit := λ w,
  (Returned tt, mkWorld (f (w_metric w)) (w_calls w) (w_stdout w)).

Definition Println (line : string) : M unit := λ w,
  (Returned tt, mkWorld (w_metric w) (w_calls w) (w_stdout w ++ [line])).

Definition logCall (c : LookupCall) : M unit := λ w,
  (Returned tt, mkWorld (w_metric w) (w_calls w ++ [c]) (w_stdout w)).

(** [l[i]] on a slice: a panic when [i] is out of range. *)
Definition index {A} (l : list A) (i : nat) : M A :=
  match l !! i with
  | Some a => mret a
  | None => panic (IndexOutOfRange i (length l))
  end.

(** [for x := range l { body }] once the order of the elements is fixed. *)
Fixpoint forRange {A} (l : list A) (body : A → M unit) : M unit :=
  match l with
  | [] => mret tt
  | x :: rest => body x ≫= λ _, forRange rest body
  end.

(** A method of [*metadata.Client]. None of [Zone], [InstanceTags],
    [InstanceName] and [Hostname] takes a context: the request runs under
    [context.Background()]. Through a nil client the call panics. *)
Definition clientCall {A} (c : option Client) (ep : Endpoint)
    (resp : Client → A * option error) : M (A * option error) :=
  match c with
  | None => panic NilPointerDereference
  | Some cl => logCall (mkCall ep Background) ≫= λ _, mret (resp cl)
  end.

Definition Zone (c : option Client) := clientCall c EpZone resp_zone.
Definition InstanceTags (c : option Client) := clientCall c EpInstanceTags resp_tags.
Definition InstanceName (c : option Client) := clientCall c EpInstanceName resp_name.
Definition Hostname (c : option Client) := clientCall c EpHostname resp_hostname.

(** What the code receives from outside: the order in which a [range] over a
    set of tag names visits them, and the answers of the metadata server
    that [metadata.NewClient] connects to. *)
Class Environment := {
  rangeKeys : gset string → list string;
  rangeKeys_perm : ∀ s, rangeKeys s ≡ₚ elements s;
  NewClient : Client;
}.

(** ** plugins/common/parallel: the dispatcher *)

(** The records delivered to the sink ([telegraf.Accumulator]), oldest
    first. *)
Definition Accumulator := list Metric.

Definition EnrichFn := Metric → Outcome (list Metric).

(** The records an enrichment call hands back; none when it panics. *)
Definition outputs (fn : EnrichFn) (item : Metric) : list Metric :=
  match fn item with
  | Returned out => out
  | Panicked _ => []
  end.

Module Ordered.

(** Modelled from the spec: the ordered dispatcher ([parallel.NewOrdered],
    its [Enqueue] and [Stop]) lives in plugins/common/parallel. Following
    sections 3 and 4.3: every accepted item takes the next sequence number;
    a completed result is stored in the reorder buffer under its number;
    the release step emits the entry at the cursor [nextToRelease] and
    advances, as long as there is one. [accepted] keeps the items in
    enqueue order, for the statements only. A panic of the enrichment
    function inside a worker is not recovered: it ends the process
    ([crashed]), and nothing moves after it. *)
Record t := mk {
  fn : EnrichFn;
  maxQueueSize : Z;
  concurrencyLimit : Z;
  nextSeq : nat;
  accepted : list Metric;
  pending : gmap nat Metric;
  buffer : gmap nat (list Metric);
  nextToRelease : nat;
  sink : Accumulator;
  stopped : bool;
  crashed : option PanicValue;
}.

(** Modelled from the spec: [parallel.NewOrdered(acc, fn, queueSize,
    workers)], with nothing enqueued yet. *)
Definition New (acc : Accumulator) (f : EnrichFn) (queueSize workers : Z) : t :=
  mk f queueSize workers 0 [] ∅ ∅ 0 acc false None.

Definition halted (d : t) : bool := stopped d || bool_decide (crashed d ≠ None).

(** Modelled from the spec: [Enqueue] of the ordered dispatcher (section
    4.1). It blocks (here: leaves the state as it is) while as many items
    as [maxQueueSize] are accepted and not yet released. *)
Definition Enqueue (item : Metric) (d : t) : t :=
  if halted d then d
  else if bool_decide (maxQueueSize d ≤ Z.of_nat (nextSeq d - nextToRelease d))%Z then d
  else mk (fn d) (maxQueueSize d) (concurrencyLimit d)
          (S (nextSeq d)) (accepted d ++ [item])
          (<[nextSeq d := item]> (pending d)) (buffer d)
          (nextToRelease d) (sink d) (stopped d) (crashed d).

(** Modelled from the spec: one turn of the release step of section 4.3. *)
Definition releaseOne (d : t) : option t :=
  match buffer d !! nextToRelease d with
  | Some out =>
      Some (mk (fn d) (maxQueueSize d) (concurrencyLimit d)
               (nextSeq d) (accepted d) (pending d)
               (delete (nextToRelease d) (buffer d))
               (S (nextToRelease d)) (sink d ++ out) (stopped d) (crashed d))
  | None => None
  end.

Fixpoint releaseLoop (fuel : nat) (d : t) : t :=
  match fuel with
  | 0 => d
  | S n => match releaseOne d with
           | Some d' => releaseLoop n d'
           | None => d
           end
  end.

(** Modelled from the spec: the release step of section 4.3. Every turn
    removes an entry of the buffer, so as many turns as the buffer has
    entries are enough ([release_reaches_gap]). *)
Definition release (d : t) : t := releaseLoop (size (buffer d)) d.

(** Modelled from the spec: the enrichment call of the item numbered [s]
    comes back (section 4.3, on completion of sequence number [s]). *)
Definition complete (s : nat) (d : t) : t :=
  match crashed d, pending d !! s with
  | None, Some item =>
      match fn d item with
      | Returned out =>
          release (mk (fn d) (maxQueueSize d) (concurrencyLimit d)
                      (nextSeq d) (accepted d) (delete s (pending d))
                      (<[s := out]> (buffer d))
                      (nextToRelease d) (sink d) (stopped d) (crashed d))
      | Panicked p =>
          mk (fn d) (maxQueueSize d) (concurrencyLimit d)
             (nextSeq d) (accepted d) (pending d) (buffer d)
             (nextToRelease d) (sink d) (stopped d) (Some p)
      end
  | _, _ => d
  end.

(** The calls of the items numbered in [l] come back, in that order. *)
Definition completeAll (d : t) (l : list nat) : t :=
  foldl (λ acc s, complete s acc) d l.

(** Modelled from the spec: [Stop] of the ordered dispatcher (section 4.1)
    waits for the work in flight: every pending call comes back, then the
    dispatcher is closed. *)
Definition Stop (d : t) : t :=
  let d' := completeAll d (elements (dom (pending d))) in
  mk (fn d') (maxQueueSize d') (concurrencyLimit d')
     (nextSeq d') (accepted d') (pending d') (buffer d')
     (nextToRelease d') (sink d') true (crashed d').

(** What can happen to the dispatcher: a call of [Enqueue], the return of
    the enrichment call of an item, a call of [Stop]. *)
Inductive Event :=
| EvEnqueue (item : Metric)
| EvComplete (s : nat)
| EvStop.

Definition step (d : t) (ev : Event) : t :=
  match ev with
  | EvEnqueue item => Enqueue item d
  | EvComplete s => complete s d
  | EvStop => Stop d
  end.

Definition exec (d : t) (evs : list Event) : t := foldl step d evs.

(** What holds of the dispatcher between any two turns, for the sink [acc0]
    and the enrichment function [f] it was made with. *)
Record consistent (acc0 : Accumulator) (f : EnrichFn) (d : t) : Prop := mkConsistent {
  c_fn : fn d = f;
  c_seq : nextSeq d = length (accepted d);
  c_cursor : nextToRelease d ≤ nextSeq d;
  c_pending : ∀ s item, pending d !! s = Some item →
                accepted d !! s = Some item ∧ nextToRelease d ≤ s;
  c_buffer : ∀ s out, buffer d !! s = Some out →
               nextToRelease d ≤ s ∧
               ∃ item, accepted d !! s = Some item ∧ f item = Returned out;
  c_apart : ∀ s, is_Some (pending d !! s) → buffer d !! s = None;
  c_cover : ∀ s, nextToRelease d ≤ s < nextSeq d →
              is_Some (pending d !! s) ∨ is_Some (buffer d !! s);
  c_sink : sink d = acc0 ++ flat_map (outputs f) (take (nextToRelease d) (accepted d));
}.

(** The release step has run to its end: nothing waits at the cursor. *)
Definition settled (d : t) : Prop := buffer d !! nextToRelease d = None.

(** The items of the [Enqueue] calls of a trace, in the order of the calls. *)
Definition enqueued (evs : list Event) : list Metric :=
  omap (λ ev, match ev with EvEnqueue item => Some item | _ => None end) evs.

End Ordered.

Module Unordered.

(** Modelled from the spec: the unordered dispatcher
    ([parallel.NewUnordered], its [Enqueue] and [Stop]) lives in
    plugins/common/parallel. Following section 4.2: the results of an item
    go to the sink the moment its enrichment call comes back. *)
Record t := mk {
  fn : EnrichFn;
  concurrencyLimit : Z;
  nextSeq : nat;
  pending : gmap nat Metric;
  sink : Accumulator;
  stopped : bool;
  crashed : option PanicValue;
}.

(** Modelled from the spec: [parallel.NewUnordered(acc, fn, workers)]. *)
Definition New (acc : Accumulator) (f : EnrichFn) (workers : Z) : t :=
  mk f workers 0 ∅ acc false None.

(** Modelled from the spec: [Enqueue] of the unordered dispatcher. *)
Definition Enqueue (item : Metric) (d : t) : t :=
  if stopped d || bool_decide (crashed d ≠ None) then d
  else mk (fn d) (concurrencyLimit d) (S (nextSeq d))
          (<[nextSeq d := item]> (pending d)) (sink d) (stopped d) (crashed d).

(** Modelled from the spec: the enrichment call of the item numbered [s]
    comes back, and its results go to the sink (section 4.2). *)
Definition complete (s : nat) (d : t) : t :=
  match crashed d, pending d !! s with
  | None, Some item =>
      match fn d item with
      | Returned out =>
          mk (fn d) (concurrencyLimit d) (nextSeq d) (delete s (pending d))
             (sink d ++ out) (stopped d) (crashed d)
      | Panicked p =>
          mk (fn d) (concurrencyLimit d) (nextSeq d) (pending d)
             (sink d) (stopped d) (Some p)
      end
  | _, _ => d
  end.

(** Modelled from the spec: [Stop] of the unordered dispatcher waits for
    the work in flight, then closes it (section 4.1). *)
Definition Stop (d : t) : t :=
  let d' := foldl (λ acc s, complete s acc) d (elements (dom (pending d))) in
  mk (fn d') (concurrencyLimit d') (nextSeq d') (pending d')
     (sink d') true (crashed d').

End Unordered.

(** The interface [parallel.Parallel] and its two implementations. *)
Inductive Parallel :=
| POrdered (d : Ordered.t)
| PUnordered (d : Unordered.t).


Definition Parallel_Stop (p : Parallel) : Parallel :=
  match p with
  | POrdered d => POrdered (Ordered.Stop d)
  | PUnordered d => PUnordered (Unordered.Stop d)
  end.

Definition Parallel_stopped (p : Parallel) : bool :=
  match p with
  | POrdered d => Ordered.stopped d
  | PUnordered d => Unordered.stopped d
  end.

(** ** The processor *)

Record GceProcessor := mkGce {
  AllowTags : list string;
  Timeout : Z;                       (* config.Duration: nanoseconds *)
  Ordered : bool;
  MaxParallelCalls : Z;
  Log : list string;                 (* the lines handed to the logger *)
  gceClient : option Client;         (* nil until Start *)
  allowTagsMap : gset string;        (* made by newGceProcessor, never nil *)
  parallel : option Parallel;        (* nil until Start *)
  instanceID : string;
}.

Definition set_Log (v : list string) (r : GceProcessor) : GceProcessor :=
  mkGce (AllowTags r) (Timeout r) (Ordered r) (MaxParallelCalls r) v
        (gceClient r) (allowTagsMap r) (parallel r) (instanceID r).

Definition set_gceClient (v : option Client) (r : GceProcessor) : GceProcessor :=
  mkGce (AllowTags r) (Timeout r) (Ordered r) (MaxParallelCalls r) (Log r)
        v (allowTagsMap r) (parallel r) (instanceID r).

Definition set_allowTagsMap (v : gset string) (r : GceProcessor) : GceProcessor :=
  mkGce (AllowTags r) (Timeout r) (Ordered r) (MaxParallelCalls r) (Log r)
        (gceClient r) v (parallel r) (instanceID r).

Definition set_parallel (v : option Parallel) (r : GceProcessor) : GceProcessor :=
  mkGce (AllowTags r) (Timeout r) (Ordered r) (MaxParallelCalls r) (Log r)
        (gceClient r) (allowTagsMap r) v (instanceID r).

Definition set_Timeout (v : Z) (r : GceProcessor) : GceProcessor :=
  mkGce (AllowTags r) v (Ordered r) (MaxParallelCalls r) (Log r)
        (gceClient r) (allowTagsMap r) (parallel r) (instanceID r).

Definition DefaultMaxOrderedQueueSize : Z := 10000.
Definition DefaultMaxParallelCalls : Z := 10.
Definition Second : Z := 1000000000.
Definition DefaultTimeout : Z := 10 * Second.

Definition permittedTags : gset string :=
  {[ "zone"; "tags"; "name"; "hostname" ]}.

Definition isTagPermitted (tag : string) : bool :=
  bool_decide (tag ∈ permittedTags).

Definition newGceProcessor : GceProcessor :=
  {| AllowTags := [];
     Timeout := DefaultTimeout;
     Ordered := false;
     MaxParallelCalls := DefaultMaxParallelCalls;
     Log := [];
     gceClient := None;
     allowTagsMap := ∅;
     parallel := None;
     instanceID := "" |}.

(** [fmt.Errorf("un-permitted metadata tag specified in configuration: %s", tag)] *)
Definition unpermittedTagError (tag : string) : error :=
  "un-permitted metadata tag specified in configuration: " +:+ tag.

Definition stopUnstartedError : error := "trying to stop unstarted GCE Processor".

(** The loop of [Init]: the first entry that is empty or not permitted ends
    it with an error; the entries before it are already in [allowTagsMap]. *)
Fixpoint initLoop (tags : list string) (r : GceProcessor) : GceProcessor * option error :=
  match tags with
  | [] => (r, None)
  | tag :: rest =>
      if (String.length tag =? 0)%nat || negb (isTagPermitted tag)
      then (r, Some (unpermittedTagError tag))
      else initLoop rest (set_allowTagsMap ({[ tag ]} ∪ allowTagsMap r) r)
  end.

(** [Init]: the processor after the call and the error returned. *)
Definition Init (r : GceProcessor) : GceProcessor * option error :=
  initLoop (AllowTags r) (set_Log (Log r ++ ["Initializing GCE Processor"]) r).

(** [getTagFromGCE(tag)]: the switch on the field name, case by case. *)
Definition getTagFromGCE (r : GceProcessor) (tag : string) : M (string * option error) :=
  if decide (tag = "zone") then
    '(zone, err) ← Zone (gceClient r);
    match err with
    | Some e => mret ("", Some e)
    | None => v ← index (GoStrings.Split zone "/"%char) 3; mret (v, None)
    end
  else if decide (tag = "tags") then
    '(instance_tags, err) ← InstanceTags (gceClient r);
    match err with
    | Some e => mret ("", Some e)
    | None => mret (GoStrings.Join instance_tags ",", None)
    end
  else if decide (tag = "name") then
    '(name, err) ← InstanceName (gceClient r);
    match err with
    | Some e => mret ("", Some e)
    | None => mret (name, None)
    end
  else if decide (tag = "hostname") then
    '(hostname, err) ← Hostname (gceClient r);
    match err with
    | Some e => mret ("", Some e)
    | None => mret (hostname, None)
    end
  else mret ("", None).

Section Processor.
Context `{Env : Environment}.

(** The body of the loop of [asyncAdd]. *)
Definition addTagFromGCE (r : GceProcessor) (tag : string) : M unit :=
  Println tag;;
  '(val, err) ← getTagFromGCE r tag;
  match err with
  | Some e => panic (PanicErr e)
  | None => modifyMetric (AddTag tag val)
  end.

(** [asyncAdd(metric)]; the metric is the one in the world. The context
    made by [WithTimeout] is bound to the blank identifier, and the
    deferred [cancel] changes nothing the model keeps. *)
Definition asyncAdd (r : GceProcessor) : M (list Metric) :=
  let '(_, cancel) := WithTimeout Background (Timeout r) in
  (if bool_decide (0 < size (allowTagsMap r))
   then forRange (rangeKeys (allowTagsMap r)) (addTagFromGCE r)
   else mret tt);;
  metric ← getMetric;
  mret [metric].

(** A call of [asyncAdd] on [metric], from a world with nothing sent and
    nothing printed. *)
Definition runAsyncAdd (r : GceProcessor) (metric : Metric) : Outcome (list Metric) * World :=
  asyncAdd r (mkWorld metric [] []).

(** [r.asyncAdd] as the dispatcher sees it. *)
Definition enrichFn (r : GceProcessor) : EnrichFn :=
  λ metric, (runAsyncAdd r metric).1.

(** [Start(acc)]: the client is made, then the dispatcher of the configured
    mode, with [r.asyncAdd] as its enrichment function. *)
Definition Start (r : GceProcessor) (acc : Accumulator) : GceProcessor * option error :=
  let r1 := set_gceClient (Some NewClient) r in
  let p :=
    if Ordered r1
    then POrdered (Ordered.New acc (enrichFn r1) DefaultMaxOrderedQueueSize (MaxParallelCalls r1))
    else PUnordered (Unordered.New acc (enrichFn r1) (MaxParallelCalls r1)) in
  (set_parallel (Some p) r1, None).

(** [Stop]: an error on a nil dispatcher, else the dispatcher's [Stop]. *)
Definition Stop (r : GceProcessor) : GceProcessor * option error :=
  match parallel r with
  | None => (r, Some stopUnstartedError)
  | Some p => (set_parallel (Some (Parallel_Stop p)) r, None)
  end.


End Processor.

(** ** Vocabulary of the statements *)

(** The four field names the processor knows. *)
Definition knownTag (tag : string) : Prop :=
  tag = "zone" ∨ tag = "tags" ∨ tag = "name" ∨ tag = "hostname".

(** An allow-list entry that [Init] refuses. *)
Definition refusedEntry (tag : string) : Prop :=
  String.length tag = 0 ∨ ¬ knownTag tag.

(** What a request adds to the world: one call, under [Background]. *)
Definition afterCall (ep : Endpoint) (w : World) : World :=
  mkWorld (w_metric w) (w_calls w ++ [mkCall ep Background]) (w_stdout w).

(** The endpoint behind a known field name. *)
Definition endpointOf (tag : string) : option Endpoint :=
  if decide (tag = "zone") then Some EpZone
  else if decide (tag = "tags") then Some EpInstanceTags
  else if decide (tag = "name") then Some EpInstanceName
  else if decide (tag = "hostname") then Some EpHostname
  else None.

(** The error, if any, of the server's answer to a request. *)
Definition remoteError (c : Client) (ep : Endpoint) : option error :=
  match ep with
  | EpZone => (resp_zone c).2
  | EpInstanceTags => (resp_tags c).2
  | EpInstanceName => (resp_name c).2
  | EpHostname => (resp_hostname c).2
  end.

(** The outcome of a lookup and the requests it sends do not depend on the
    world it runs in ([getTagFromGCE_run]): they are those of a run in an
    empty world. *)
Definition blankWorld : World := mkWorld (mkMetric "" ∅ ∅ 0) [] [].

Definition lookupOutcome (r : GceProcessor) (tag : string) : Outcome (string * option error) :=
  (getTagFromGCE r tag blankWorld).1.

Definition lookupCalls (r : GceProcessor) (tag : string) : list LookupCall :=
  w_calls (getTagFromGCE r tag blankWorld).2.

(** What a run may change between two worlds, given the tag names it may
    write: tags of those names are set, nothing is removed, requests are
    added, all of them under [Background]. *)
Record grows (names : list string) (w w' : World) : Prop := mkGrows {
  grows_name : m_name (w_metric w') = m_name (w_metric w);
  grows_fields : m_fields (w_metric w') = m_fields (w_metric w);
  grows_time : m_time (w_metric w') = m_time (w_metric w);
  grows_other : ∀ k, k ∉ names → m_tags (w_metric w') !! k = m_tags (w_metric w) !! k;
  grows_kept : ∀ k, is_Some (m_tags (w_metric w) !! k) → is_Some (m_tags (w_metric w') !! k);
  grows_calls : ∃ cs, w_calls w' = w_calls w ++ cs ∧ Forall (λ c, call_ctx c = Background) cs;
}.

(** ** Sample values *)

(** A server that answers every request, the zone as a path. *)
Definition sampleClient : Client :=
  {| resp_zone := ("projects/123456789/zones/us-central1-a", None);
     resp_tags := (["http-server"; "https-server"], None);
     resp_name := ("instance-1", None);
     resp_hostname := ("instance-1.c.my-project.internal", None) |}.

(** A server that answers the zone request with the bare zone name. *)
Definition bareZoneClient : Client :=
  {| resp_zone := ("us-central1-a", None);
     resp_tags := (["http-server"], None);
     resp_name := ("instance-1", None);
     resp_hostname := ("instance-1.c.my-project.internal", None) |}.

(** A server whose answer to the name request is an error. *)
Definition nameTimeoutClient : Client :=
  {| resp_zone := ("projects/123456789/zones/us-central1-a", None);
     resp_tags := (["http-server"], None);
     resp_name := ("", Some "context deadline exceeded");
     resp_hostname := ("instance-1.c.my-project.internal", None) |}.

(** A server whose answer to the hostname request is an error. *)
Definition hostnameDownClient : Client :=
  {| resp_zone := ("projects/123456789/zones/us-central1-a", None);
     resp_tags := (["http-server"], None);
     resp_name := ("instance-1", None);
     resp_hostname := ("", Some "metadata: GCE metadata not defined") |}.

(** An environment to run the definitions in: the keys in the order of
    [elements], and [sampleClient] as the server. *)
Definition sampleEnv : Environment :=
  {| rangeKeys := elements;
     rangeKeys_perm := λ s, Permutation_refl (elements s);
     NewClient := sampleClient |}.

(** The same, with the keys visited in the opposite order. *)
Definition reversedEnv : Environment :=
  {| rangeKeys := λ s, rev (elements s);
     rangeKeys_perm := λ s, Permutation_sym (Permutation_rev (elements s));
     NewClient := sampleClient |}.

(** A processor fresh from [newGceProcessor] with [allow_tags] read from the
    configuration. *)
Definition configured (tags : list string) : GceProcessor :=
  mkGce tags DefaultTimeout false DefaultMaxParallelCalls [] None ∅ None "".

(** A processor past [Init] and [Start]: its tag set and its client. *)
Definition onGce (c : Client) (tags : gset string) : GceProcessor :=
  set_gceClient (Some c) (set_allowTagsMap tags newGceProcessor).

(** A processor configured with [ordered = true] and no tag. *)
Definition orderedGce : GceProcessor :=
  mkGce [] DefaultTimeout true 3 [] None ∅ None "".

Definition cpu : Metric :=
  {| m_name := "cpu";
     m_tags := {[ "host" := "a" ]};
     m_fields := {[ "usage" := FInt 42 ]};
     m_time := 1700000000 |}.

Definition mem : Metric :=
  {| m_name := "mem"; m_tags := ∅; m_fields := {[ "used" := FInt 7 ]}; m_time := 1700000001 |}.

Definition disk : Metric :=
  {| m_name := "disk"; m_tags := ∅; m_fields := {[ "free" := FInt 9 ]}; m_time := 1700000002 |}.

(** * Properties *)

(** ** The allow-list and [Init] *)

Lemma isTagPermitted_known tag : isTagPermitted tag = true ↔ knownTag tag.
Proof.
  unfold isTagPermitted, permittedTags, knownTag.
  rewrite bool_decide_eq_true. set_solver.
Qed.

Lemma refused_test tag :
  (String.length tag =? 0)%nat || negb (isTagPermitted tag) = true ↔ refusedEntry tag.
Proof.
  unfold refusedEntry.
  rewrite orb_true_iff, Nat.eqb_eq, negb_true_iff, <- isTagPermitted_known.
  destruct (isTagPermitted tag); intuition congruence.
Qed.

Lemma initLoop_error tags r :
  (∃ e, (initLoop tags r).2 = Some e) ↔ (∃ tag, tag ∈ tags ∧ refusedEntry tag).
Proof.
  revert r. induction tags as [|tag rest IH]; intros r; simpl.
  - split; [intros [e ?]; discriminate | intros (tag & Hin & _); inversion Hin].
  - destruct ((String.length tag =? 0)%nat || negb (isTagPermitted tag)) eqn:Htest.
    + split; [|eauto]. intros _. exists tag. split; [left|].
      by apply refused_test.
    + rewrite IH. split.
      * intros (t & Hin & Hbad). exists t. split; [by right | done].
      * intros (t & Hin & Hbad). apply elem_of_cons in Hin as [->|Hin].
        -- apply refused_test in Hbad. congruence.
        -- eauto.
Qed.

Lemma initLoop_first_refused tags r e :
  (initLoop tags r).2 = Some e →
  ∃ before tag after,
    tags = before ++ tag :: after ∧ refusedEntry tag ∧
    Forall (λ t, ¬ refusedEntry t) before ∧ e = unpermittedTagError tag.
Proof.
  revert r. induction tags as [|tag rest IH]; intros r; simpl; [discriminate|].
  destruct ((String.length tag =? 0)%nat || negb (isTagPermitted tag)) eqn:Htest.
  - intros [= <-]. exists [], tag, rest. apply refused_test in Htest. by repeat split.
  - intros (before & t & after & -> & Hbad & Hok & ->)%IH.
    exists (tag :: before), t, after. repeat split; try done.
    constructor; [|done]. rewrite <- refused_test. congruence.
Qed.

Lemma initLoop_recorded tags r :
  (initLoop tags r).2 = None →
  allowTagsMap (initLoop tags r).1 = list_to_set tags ∪ allowTagsMap r.
Proof.
  revert r. induction tags as [|tag rest IH]; intros r; simpl.
  - intros _. set_solver.
  - destruct ((String.length tag =? 0)%nat || negb (isTagPermitted tag)); [discriminate|].
    intros Hok. rewrite (IH _ Hok). simpl. set_solver.
Qed.

Lemma initLoop_frame tags r :
  let r' := (initLoop tags r).1 in
  parallel r' = parallel r ∧ gceClient r' = gceClient r ∧
  AllowTags r' = AllowTags r ∧ Timeout r' = Timeout r ∧
  Ordered r' = Ordered r ∧ MaxParallelCalls r' = MaxParallelCalls r.
Proof.
  revert r. induction tags as [|tag rest IH]; intros r; simpl; [done|].
  destruct ((String.length tag =? 0)%nat || negb (isTagPermitted tag)); [done|].
  apply (IH (set_allowTagsMap _ r)).
Qed.

(** C4: on a processor whose tag set is still empty (as [newGceProcessor]
    leaves it), [Init] returns an error if and only if some entry of the
    configured allow-list is empty or is not one of zone, tags, name,
    hostname; when it returns no error the tag set holds exactly the
    configured names. [Init] leaves the dispatcher field as it was: nothing
    is dispatched before it has answered. *)
Theorem Init_refuses_exactly_unpermitted (r : GceProcessor) :
  allowTagsMap r = ∅ →
  ((∃ e, (Init r).2 = Some e) ↔ (∃ tag, tag ∈ AllowTags r ∧ refusedEntry tag))
  ∧ ((∀ tag, tag ∈ AllowTags r → String.length tag ≠ 0 ∧ knownTag tag) →
       (Init r).2 = None)
  ∧ ((Init r).2 = None →
       ∀ tag, tag ∈ allowTagsMap (Init r).1 ↔ tag ∈ AllowTags r)
  ∧ parallel (Init r).1 = parallel r.
Proof.
  intros Hempty. unfold Init.
  set (r0 := set_Log _ r).
  assert (Herr := initLoop_error (AllowTags r) r0).
  repeat split.
  - apply Herr.
  - apply Herr.
  - intros Hall. destruct (initLoop (AllowTags r) r0).2 as [e|] eqn:He; [|done].
    destruct (proj1 Herr (ex_intro _ e eq_refl)) as (tag & Hin & Hbad).
    destruct (Hall tag Hin) as [Hlen Hknown]. destruct Hbad; tauto.
  - rewrite (initLoop_recorded _ _ H). subst r0. simpl. rewrite Hempty. set_solver.
  - rewrite (initLoop_recorded _ _ H). subst r0. simpl. rewrite Hempty. set_solver.
  - apply (initLoop_frame (AllowTags r) r0).
Qed.

Lemma Init_refuses_exactly_unpermitted_witness :
  (Init (configured ["zone"; "name"])).2 = None ∧
  elements (allowTagsMap (Init (configured ["zone"; "name"])).1) = ["name"; "zone"].
Proof.
  pose proof (Init_refuses_exactly_unpermitted (configured ["zone"; "name"]) eq_refl)
    as (_ & Hok & _).
  split; [|vm_compute; reflexivity].
  apply Hok. intros tag Hin. unfold knownTag.
  apply elem_of_cons in Hin as [->|Hin]; [split; [simpl; lia | tauto]|].
  apply elem_of_cons in Hin as [->|Hin]; [split; [simpl; lia | tauto]|].
  inversion Hin.
Defined.

Example Init_stops_at_first_refused :
  (Init (configured ["zone"; "region"; "name"])).2
    = Some "un-permitted metadata tag specified in configuration: region"
  ∧ elements (allowTagsMap (Init (configured ["zone"; "region"; "name"])).1) = ["zone"].
Proof. vm_compute. done. Qed.

(** ** [getTagFromGCE] *)

Lemma splitByte_length sep s cur :
  length (GoStrings.splitByte sep s cur) = S (GoStrings.countByte sep s).
Proof.
  revert cur. induction s as [|c rest IH]; intros cur; simpl; [done|].
  destruct (Ascii.eqb c sep); simpl; by rewrite IH.
Qed.

Lemma Split_length s sep :
  length (GoStrings.Split s sep) = S (GoStrings.countByte sep s).
Proof. apply splitByte_length. Qed.

Lemma clientCall_run {A} c ep (resp : Client → A * option error) w :
  clientCall (Some c) ep resp w = (Returned (resp c), afterCall ep w).
Proof. reflexivity. Qed.

Lemma getTagFromGCE_zone r c z w :
  gceClient r = Some c → resp_zone c = (z, None) →
  getTagFromGCE r "zone" w =
    (match GoStrings.Split z "/"%char !! 3 with
     | Some v => Returned (v, None)
     | None => Panicked (IndexOutOfRange 3 (length (GoStrings.Split z "/"%char)))
     end, afterCall EpZone w).
Proof.
  intros Hc Hz. unfold getTagFromGCE. simpl.
  unfold Zone. rewrite Hc. unfold mbind, M_bind. rewrite clientCall_run, Hz.
  unfold index. by destruct (GoStrings.Split z "/"%char !! 3).
Qed.

Lemma getTagFromGCE_tags r c l w :
  gceClient r = Some c → resp_tags c = (l, None) →
  getTagFromGCE r "tags" w = (Returned (GoStrings.Join l ",", None), afterCall EpInstanceTags w).
Proof.
  intros Hc Hz. unfold getTagFromGCE. simpl.
  unfold InstanceTags. rewrite Hc. unfold mbind, M_bind. by rewrite clientCall_run, Hz.
Qed.

Lemma getTagFromGCE_name r c v w :
  gceClient r = Some c → resp_name c = (v, None) →
  getTagFromGCE r "name" w = (Returned (v, None), afterCall EpInstanceName w).
Proof.
  intros Hc Hz. unfold getTagFromGCE. simpl.
  unfold InstanceName. rewrite Hc. unfold mbind, M_bind. by rewrite clientCall_run, Hz.
Qed.

Lemma getTagFromGCE_hostname r c v w :
  gceClient r = Some c → resp_hostname c = (v, None) →
  getTagFromGCE r "hostname" w = (Returned (v, None), afterCall EpHostname w).
Proof.
  intros Hc Hz. unfold getTagFromGCE. simpl.
  unfold Hostname. rewrite Hc. unfold mbind, M_bind. by rewrite clientCall_run, Hz.
Qed.

(** A failed request comes back from [getTagFromGCE] as an error value. *)
Lemma getTagFromGCE_failure r c tag ep e w :
  gceClient r = Some c → endpointOf tag = Some ep → remoteError c ep = Some e →
  getTagFromGCE r tag w = (Returned ("", Some e), afterCall ep w).
Proof.
  intros Hc Hep He. unfold getTagFromGCE, endpointOf in *.
  unfold Zone, InstanceTags, InstanceName, Hostname. rewrite Hc.
  repeat case_decide; simplify_eq; simpl in He;
    unfold mbind, M_bind; rewrite clientCall_run.
  - destruct (resp_zone c) as [z o]; simpl in *; by subst.
  - destruct (resp_tags c) as [z o]; simpl in *; by subst.
  - destruct (resp_name c) as [z o]; simpl in *; by subst.
  - destruct (resp_hostname c) as [z o]; simpl in *; by subst.
Qed.

(** C6: for a field name that is none of zone, tags, name and hostname,
    [getTagFromGCE] returns the empty string and a nil error; it sends no
    request and changes nothing. *)
Theorem getTagFromGCE_unknown_dropped (r : GceProcessor) (tag : string) (w : World) :
  ¬ knownTag tag →
  getTagFromGCE r tag w = (Returned ("", None), w).
Proof.
  intros Hunknown. unfold getTagFromGCE, knownTag in *.
  repeat case_decide; tauto || reflexivity.
Qed.

Lemma getTagFromGCE_unknown_dropped_witness :
  getTagFromGCE newGceProcessor "region" (mkWorld cpu [] [])
    = (Returned ("", None), mkWorld cpu [] []).
Proof.
  apply (getTagFromGCE_unknown_dropped newGceProcessor "region").
  unfold knownTag. intros [H|[H|[H|H]]]; discriminate H.
Defined.

(** C9: when the client answers the zone request with the string [z], the
    'zone' lookup returns if and only if [z] has at least four segments
    between '/' (that is, at least three '/'); it then returns the fourth one.
    With fewer segments the index into the split result is out of range and
    the lookup panics. *)
Theorem zone_lookup_total_iff_four_segments
    (r : GceProcessor) (c : Client) (z : string) (w : World) :
  gceClient r = Some c → resp_zone c = (z, None) →
  let segments := GoStrings.Split z "/"%char in
  length segments = S (GoStrings.countByte "/"%char z)
  ∧ (returns (getTagFromGCE r "zone" w).1 ↔ (4 ≤ length segments)%nat)
  ∧ ((4 ≤ length segments)%nat →
       ∃ v, segments !! 3 = Some v ∧ (getTagFromGCE r "zone" w).1 = Returned (v, None))
  ∧ ((length segments < 4)%nat →
       (getTagFromGCE r "zone" w).1 = Panicked (IndexOutOfRange 3 (length segments))).
Proof.
  intros Hc Hz segments. rewrite (getTagFromGCE_zone r c z w Hc Hz). fold segments.
  split; [apply Split_length|]. simpl.
  destruct (segments !! 3) as [v|] eqn:Hv.
  - assert (3 < length segments)%nat by (by apply lookup_lt_Some in Hv).
    repeat split; try lia; eauto. by exists (v, None).
  - assert (length segments ≤ 3)%nat by (by apply lookup_ge_None in Hv).
    repeat split; try lia. intros [a Ha]. discriminate.
Qed.

Lemma zone_lookup_total_iff_four_segments_witness :
  (getTagFromGCE (onGce sampleClient ∅) "zone" (mkWorld cpu [] [])).1
    = Returned ("us-central1-a", None).
Proof.
  destruct (zone_lookup_total_iff_four_segments (onGce sampleClient ∅) sampleClient
              "projects/123456789/zones/us-central1-a" (mkWorld cpu [] [])
              eq_refl eq_refl) as (_ & _ & Hfour & _).
  destruct Hfour as (v & Hv & Hrun); [vm_compute; lia|].
  vm_compute in Hv. injection Hv as <-. exact Hrun.
Defined.

(** C7, where the code departs from it: the client answers the zone request
    with "us-central1-a" and no error, and the 'zone' lookup does not return
    a value: it panics on the index into the split result. *)
Theorem zone_lookup_panics_on_bare_zone :
  resp_zone bareZoneClient = ("us-central1-a", None)
  ∧ (getTagFromGCE (onGce bareZoneClient ∅) "zone" (mkWorld cpu [] [])).1
      = Panicked (IndexOutOfRange 3 1).
Proof. split; reflexivity. Qed.

(** For 'tags', 'name' and 'hostname', and for 'zone' on a zone string of at
    least four segments, an answer without error is returned as C7 has
    it. *)
Lemma getTagFromGCE_success (r : GceProcessor) (c : Client) (w : World) :
  gceClient r = Some c →
  (∀ z v, resp_zone c = (z, None) → GoStrings.Split z "/"%char !! 3 = Some v →
     (getTagFromGCE r "zone" w).1 = Returned (v, None))
  ∧ (∀ l, resp_tags c = (l, None) →
     (getTagFromGCE r "tags" w).1 = Returned (GoStrings.Join l ",", None))
  ∧ (∀ v, resp_name c = (v, None) →
     (getTagFromGCE r "name" w).1 = Returned (v, None))
  ∧ (∀ v, resp_hostname c = (v, None) →
     (getTagFromGCE r "hostname" w).1 = Returned (v, None)).
Proof.
  intros Hc. repeat split.
  - intros z v Hz Hv. by rewrite (getTagFromGCE_zone r c z w Hc Hz), Hv.
  - intros l Hl. by rewrite (getTagFromGCE_tags r c l w Hc Hl).
  - intros v Hv. by rewrite (getTagFromGCE_name r c v w Hc Hv).
  - intros v Hv. by rewrite (getTagFromGCE_hostname r c v w Hc Hv).
Qed.

Lemma getTagFromGCE_run r tag w :
  getTagFromGCE r tag w =
    (lookupOutcome r tag,
     mkWorld (w_metric w) (w_calls w ++ lookupCalls r tag) (w_stdout w)).
Proof.
  unfold lookupOutcome, lookupCalls, getTagFromGCE.
  unfold Zone, InstanceTags, InstanceName, Hostname, clientCall, index.
  destruct w as [m cs out].
  repeat case_decide; destruct (gceClient r) as [c|]; simpl;
    unfold mbind, M_bind, panic, logCall, mret, M_ret; simpl;
    rewrite ?app_nil_r; try reflexivity.
  - destruct (resp_zone c) as [z [e|]]; simpl; [done|].
    by destruct (GoStrings.Split z "/"%char !! 3).
  - by destruct (resp_tags c) as [z [e|]].
  - by destruct (resp_name c) as [z [e|]].
  - by destruct (resp_hostname c) as [z [e|]].
Qed.

Lemma lookupCalls_background r tag :
  Forall (λ c, call_ctx c = Background) (lookupCalls r tag).
Proof.
  unfold lookupCalls, getTagFromGCE.
  unfold Zone, InstanceTags, InstanceName, Hostname, clientCall, index.
  repeat case_decide; destruct (gceClient r) as [c|]; simpl;
    unfold mbind, M_bind, panic, logCall, mret, M_ret; simpl;
    try (by constructor).
  - destruct (resp_zone c) as [z [e|]]; simpl; [by repeat constructor|].
    destruct (GoStrings.Split z "/"%char !! 3); by repeat constructor.
  - destruct (resp_tags c) as [z [e|]]; by repeat constructor.
  - destruct (resp_name c) as [z [e|]]; by repeat constructor.
  - destruct (resp_hostname c) as [z [e|]]; by repeat constructor.
Qed.

(** ** [asyncAdd] *)

(** One turn of the loop of [asyncAdd], by the outcome of its lookup. *)
Lemma addTagFromGCE_run r tag w :
  addTagFromGCE r tag w =
    let calls := w_calls w ++ lookupCalls r tag in
    let out := w_stdout w ++ [tag] in
    match lookupOutcome r tag with
    | Returned (val, None) => (Returned tt, mkWorld (AddTag tag val (w_metric w)) calls out)
    | Returned (_, Some e) => (Panicked (PanicErr e), mkWorld (w_metric w) calls out)
    | Panicked p => (Panicked p, mkWorld (w_metric w) calls out)
    end.
Proof.
  unfold addTagFromGCE, mbind, M_bind, Println. rewrite getTagFromGCE_run. simpl.
  destruct (lookupOutcome r tag) as [[val [e|]]|p]; reflexivity.
Qed.

Lemma grows_refl names w : grows names w w.
Proof.
  split; try done. exists []. split; [by rewrite app_nil_r | constructor].
Qed.

Lemma grows_step r tag names w :
  tag ∈ names → grows names w (addTagFromGCE r tag w).2.
Proof.
  intros Hin. rewrite addTagFromGCE_run. simpl.
  assert (Hcalls : ∃ cs, w_calls w ++ lookupCalls r tag = w_calls w ++ cs
                         ∧ Forall (λ c, call_ctx c = Background) cs)
    by (eexists; split; [done | apply lookupCalls_background]).
  destruct (lookupOutcome r tag) as [[val [e|]]|p]; split; simpl; try done.
  - intros k Hk. apply lookup_insert_ne. intros ->. done.
  - intros k Hk. rewrite lookup_insert. case_decide; [by eexists | done].
Qed.

Lemma grows_trans names w1 w2 w3 :
  grows names w1 w2 → grows names w2 w3 → grows names w1 w3.
Proof.
  intros [] []. split; try congruence.
  - intros k Hk. rewrite grows_other1, grows_other0; done.
  - auto.
  - destruct grows_calls0 as (cs & -> & Hcs) in grows_calls1.
    destruct grows_calls1 as (cs' & -> & Hcs').
    exists (cs ++ cs'). split; [by rewrite app_assoc | by apply Forall_app].
Qed.

Lemma forRange_cons {A} (x : A) rest body w :
  forRange (x :: rest) body w =
    match body x w with
    | (Returned _, w') => forRange rest body w'
    | (Panicked p, w') => (Panicked p, w')
    end.
Proof. reflexivity. Qed.

Lemma forRange_grows r l names w :
  l ⊆ names → grows names w (forRange l (addTagFromGCE r) w).2.
Proof.
  revert w. induction l as [|x rest IH]; intros w Hsub; [apply grows_refl|].
  rewrite forRange_cons.
  assert (Hstep := grows_step r x names w (Hsub x (list_elem_of_here _ _))).
  destruct (addTagFromGCE r x w) as [[[]|p] w'] eqn:Hrun; simpl in *; [|done].
  eapply grows_trans; [done|]. apply IH. intros y Hy. apply Hsub. by right.
Qed.

Lemma forRange_success r l w :
  (∀ tag, tag ∈ l → ∃ v, lookupOutcome r tag = Returned (v, None)) →
  (forRange l (addTagFromGCE r) w).1 = Returned tt
  ∧ ∀ k v, k ∈ l → lookupOutcome r k = Returned (v, None) →
      m_tags (w_metric (forRange l (addTagFromGCE r) w).2) !! k = Some v.
Proof.
  revert w. induction l as [|x rest IH]; intros w Hall.
  - split; [done|]. intros k v Hk. inversion Hk.
  - destruct (Hall x (list_elem_of_here _ _)) as [vx Hx].
    rewrite forRange_cons, addTagFromGCE_run, Hx. simpl.
    set (w1 := mkWorld _ _ _).
    destruct (IH w1) as [Hret Htags]; [intros t Ht; apply Hall; by right|].
    split; [done|]. intros k v Hk Hv.
    destruct (decide (k ∈ rest)) as [Hin|Hout]; [by apply Htags|].
    apply elem_of_cons in Hk as [->|Hk]; [|done].
    rewrite (grows_other _ _ _ (forRange_grows r rest rest w1 (λ _ H, H)) x Hout).
    subst w1. simpl. rewrite lookup_insert_eq. congruence.
Qed.

Lemma forRange_failure r l w tag v e :
  tag ∈ l → lookupOutcome r tag = Returned (v, Some e) →
  ∃ p, (forRange l (addTagFromGCE r) w).1 = Panicked p
       ∧ ((∀ t, t ∈ l → t ≠ tag → ∃ v', lookupOutcome r t = Returned (v', None)) →
          p = PanicErr e).
Proof.
  revert w. induction l as [|x rest IH]; intros w Hin Hfail; [inversion Hin|].
  rewrite forRange_cons, addTagFromGCE_run. simpl.
  destruct (decide (x = tag)) as [->|Hne].
  { rewrite Hfail. simpl. by exists (PanicErr e). }
  apply elem_of_cons in Hin as [->|Hin]; [done|].
  destruct (lookupOutcome r x) as [[val [e'|]]|p] eqn:Hx; simpl.
  - exists (PanicErr e'). split; [done|]. intros Hothers.
    destruct (Hothers x (list_elem_of_here _ _) Hne) as [v' Hv']. congruence.
  - destruct (IH (mkWorld (AddTag x val (w_metric w))
                          (w_calls w ++ lookupCalls r x) (w_stdout w ++ [x]))
                 Hin Hfail) as (p & Hp & Honly).
    exists p. split; [done|]. intros Hothers. apply Honly.
    intros t Ht. apply Hothers. by right.
  - exists p. split; [done|]. intros Hothers.
    destruct (Hothers x (list_elem_of_here _ _) Hne) as [v' Hv']. congruence.
Qed.

Section AsyncAdd.
Context `{Env : Environment}.

Lemma rangeKeys_elem (s : gset string) (x : string) : x ∈ rangeKeys s ↔ x ∈ s.
Proof. by rewrite (rangeKeys_perm s), elem_of_elements. Qed.

Lemma rangeKeys_empty (s : gset string) : size s = 0 → rangeKeys s = [].
Proof.
  intros Hsize. apply size_empty_inv in Hsize.
  apply Permutation_nil_r. rewrite (rangeKeys_perm s).
  apply elements_empty_iff in Hsize. by rewrite Hsize.
Qed.

(** [asyncAdd] is its loop over the tag set, then the return of the
    metric; on an empty set the guard skips a loop of no turn. *)
Lemma asyncAdd_run r w :
  asyncAdd r w =
    match forRange (rangeKeys (allowTagsMap r)) (addTagFromGCE r) w with
    | (Returned _, w') => (Returned [w_metric w'], w')
    | (Panicked p, w') => (Panicked p, w')
    end.
Proof.
  unfold asyncAdd. simpl. unfold mbind, M_bind.
  case_bool_decide as Hsize; [reflexivity|].
  rewrite rangeKeys_empty by lia. reflexivity.
Qed.

Lemma runAsyncAdd_grows r metric :
  grows (rangeKeys (allowTagsMap r)) (mkWorld metric [] []) (runAsyncAdd r metric).2.
Proof.
  unfold runAsyncAdd. rewrite asyncAdd_run.
  pose proof (forRange_grows r (rangeKeys (allowTagsMap r)) _
                (mkWorld metric [] []) (λ _ H, H)) as Hg.
  by destruct (forRange _ _ _) as [[[]|p] w'].
Qed.

(** The timeout of the configuration plays no part in [asyncAdd]. *)
Lemma asyncAdd_ignores_Timeout r t : asyncAdd (set_Timeout t r) = asyncAdd r.
Proof. reflexivity. Qed.

(** Every request of a call of [asyncAdd] runs without a deadline. *)
Lemma asyncAdd_calls_unbounded r metric :
  Forall (λ c, deadline (call_ctx c) = None) (w_calls (runAsyncAdd r metric).2).
Proof.
  destruct (grows_calls _ _ _ (runAsyncAdd_grows r metric)) as (cs & -> & Hcs).
  simpl. eapply Forall_impl; [done|]. by intros c ->.
Qed.

End AsyncAdd.

Section AsyncAddClaims.
Context `{Env : Environment}.

(** C10: whatever a call of [asyncAdd] does (return or panic), the metric
    keeps its name, fields and time, every tag whose name is outside the
    allow-set keeps its value, and no tag is removed; when the call returns
    it returns that metric. On an empty allow-set it sends no request and
    returns the metric as it was. *)
Theorem asyncAdd_changes_only_allowed_tags (r : GceProcessor) (metric : Metric) :
  let m' := w_metric (runAsyncAdd r metric).2 in
  m_name m' = m_name metric
  ∧ m_fields m' = m_fields metric
  ∧ m_time m' = m_time metric
  ∧ (∀ k, k ∉ allowTagsMap r → m_tags m' !! k = m_tags metric !! k)
  ∧ (∀ k, is_Some (m_tags metric !! k) → is_Some (m_tags m' !! k))
  ∧ (∀ out, (runAsyncAdd r metric).1 = Returned out → out = [m'])
  ∧ (allowTagsMap r = ∅ →
       runAsyncAdd r metric = (Returned [metric], mkWorld metric [] [])).
Proof.
  intros m'. destruct (runAsyncAdd_grows r metric) as [Hn Hf Ht Ho Hk _].
  repeat split; try done.
  - intros k Hout. apply Ho. by rewrite rangeKeys_elem.
  - subst m'. unfold runAsyncAdd. rewrite asyncAdd_run.
    destruct (forRange _ _ _) as [[[]|p] w']; simpl; congruence.
  - intros Hempty. unfold runAsyncAdd. rewrite asyncAdd_run.
    rewrite rangeKeys_empty; [done|]. by rewrite Hempty.
Qed.

(** C8, amended: when the lookup of every allowed tag succeeds, a call of
    [asyncAdd] returns exactly one record, the input metric, with every
    allowed tag set to the value looked up and the rest left as it was. *)
Theorem asyncAdd_returns_one_record_when_lookups_succeed
    (r : GceProcessor) (metric : Metric) :
  (∀ tag, tag ∈ allowTagsMap r → ∃ v, lookupOutcome r tag = Returned (v, None)) →
  ∃ m', (runAsyncAdd r metric).1 = Returned [m']
    ∧ m' = w_metric (runAsyncAdd r metric).2
    ∧ m_name m' = m_name metric
    ∧ m_fields m' = m_fields metric
    ∧ m_time m' = m_time metric
    ∧ (∀ k, k ∉ allowTagsMap r → m_tags m' !! k = m_tags metric !! k)
    ∧ (∀ k v, k ∈ allowTagsMap r → lookupOutcome r k = Returned (v, None) →
         m_tags m' !! k = Some v).
Proof.
  intros Hall.
  destruct (runAsyncAdd_grows r metric) as [Hn Hf Ht Ho _ _].
  destruct (forRange_success r (rangeKeys (allowTagsMap r)) (mkWorld metric [] []))
    as [Hret Htags].
  { intros tag Htag. apply Hall. by apply rangeKeys_elem. }
  exists (w_metric (runAsyncAdd r metric).2).
  repeat split; try done.
  - unfold runAsyncAdd. rewrite asyncAdd_run.
    destruct (forRange _ _ _) as [[[]|p] w']; simpl in *; congruence.
  - intros k Hout. apply Ho. by rewrite rangeKeys_elem.
  - intros k v Hk Hv. unfold runAsyncAdd. rewrite asyncAdd_run.
    specialize (Htags k v (proj2 (rangeKeys_elem _ _) Hk) Hv).
    by destruct (forRange _ _ _) as [[[]|p] w'].
Qed.

(** C2, amended: when the request behind an allowed tag fails,
    [getTagFromGCE] hands the failure back to [asyncAdd] as an error value,
    and the call of [asyncAdd] panics: it returns no record. When no other
    allowed tag fails, the panic carries that error. *)
Theorem asyncAdd_panics_on_failed_lookup
    (r : GceProcessor) (c : Client) (metric : Metric)
    (tag : string) (ep : Endpoint) (e : error) :
  gceClient r = Some c → tag ∈ allowTagsMap r →
  endpointOf tag = Some ep → remoteError c ep = Some e →
  (∀ w, getTagFromGCE r tag w = (Returned ("", Some e), afterCall ep w))
  ∧ ∃ p, (runAsyncAdd r metric).1 = Panicked p
       ∧ ((∀ t, t ∈ allowTagsMap r → t ≠ tag →
             ∃ v, lookupOutcome r t = Returned (v, None)) →
          p = PanicErr e).
Proof.
  intros Hc Hin Hep He.
  assert (Hfail : ∀ w, getTagFromGCE r tag w = (Returned ("", Some e), afterCall ep w))
    by (intros w; by apply (getTagFromGCE_failure r c)).
  split; [done|].
  destruct (forRange_failure r (rangeKeys (allowTagsMap r)) (mkWorld metric [] [])
              tag "" e) as (p & Hp & Honly).
  { by apply rangeKeys_elem. }
  { unfold lookupOutcome. by rewrite Hfail. }
  exists p. split.
  - unfold runAsyncAdd. rewrite asyncAdd_run.
    destruct (forRange _ _ _) as [[[]|p'] w']; simpl in *; congruence.
  - intros Hothers. apply Honly. intros t Ht. apply Hothers. by apply rangeKeys_elem.
Qed.

End AsyncAddClaims.

Lemma asyncAdd_returns_one_record_when_lookups_succeed_witness :
  (@runAsyncAdd sampleEnv (onGce sampleClient {[ "name" ]}) cpu).1
    = Returned [AddTag "name" "instance-1" cpu].
Proof.
  destruct (@asyncAdd_returns_one_record_when_lookups_succeed sampleEnv
              (onGce sampleClient {[ "name" ]}) cpu) as (m' & Hret & Hm' & _).
  - intros tag Htag. change (tag ∈ ({[ "name" ]} : gset string)) in Htag.
    apply elem_of_singleton in Htag as ->.
    exists "instance-1". reflexivity.
  - rewrite Hret, Hm'. vm_compute. reflexivity.
Defined.

Lemma asyncAdd_panics_on_failed_lookup_witness :
  (@runAsyncAdd sampleEnv (onGce nameTimeoutClient {[ "name" ]}) cpu).1
    = Panicked (PanicErr "context deadline exceeded").
Proof.
  destruct (@asyncAdd_panics_on_failed_lookup sampleEnv
              (onGce nameTimeoutClient {[ "name" ]}) nameTimeoutClient cpu
              "name" EpInstanceName "context deadline exceeded"
              eq_refl (proj2 (elem_of_singleton _ _) eq_refl) eq_refl eq_refl)
    as (_ & p & Hp & Honly).
  rewrite Hp. f_equal. apply Honly.
  intros t Ht Hne. change (t ∈ ({[ "name" ]} : gset string)) in Ht.
  apply elem_of_singleton in Ht. contradiction.
Defined.

(** C2 as stated fails: the name request fails, and the enrichment call does
    not come back to its caller with a record or an error; it panics. *)
Lemma failed_lookup_is_not_recoverable :
  remoteError nameTimeoutClient EpInstanceName = Some "context deadline exceeded"
  ∧ ¬ returns (@runAsyncAdd sampleEnv (onGce nameTimeoutClient {[ "name" ]}) cpu).1.
Proof.
  split; [reflexivity|]. intros [out Hout]. vm_compute in Hout. discriminate Hout.
Qed.

(** C8 as stated fails: on this metric the enrichment call returns no
    record at all. *)
Lemma asyncAdd_may_return_no_record :
  ¬ ∃ m', (@runAsyncAdd sampleEnv (onGce hostnameDownClient {[ "hostname" ]}) cpu).1
            = Returned [m'].
Proof. intros [m' Hm']. vm_compute in Hm'. discriminate Hm'. Qed.

(** C3, where the code departs from it: with the timeout of the
    configuration at ten seconds, the request that [asyncAdd] sends runs
    under [context.Background()], which has no deadline; the context made
    from the timeout reaches no request. *)
Theorem asyncAdd_lookup_runs_without_timeout :
  Timeout (onGce sampleClient {[ "name" ]}) = (10 * Second)%Z
  ∧ w_calls (@runAsyncAdd sampleEnv (onGce sampleClient {[ "name" ]}) cpu).2
      = [mkCall EpInstanceName Background]
  ∧ deadline Background = None
  ∧ deadline (WithTimeout Background (Timeout (onGce sampleClient {[ "name" ]}))).1
      = Some (10 * Second)%Z.
Proof. repeat split; vm_compute; reflexivity. Qed.

(** ** [Start] and [Stop] *)

(** C5: [Stop] on a processor whose dispatcher is nil (never started, as
    [newGceProcessor] makes it) returns the error "trying to stop unstarted
    GCE Processor" and changes nothing; after [Start], which returns no
    error, [Stop] calls the [Stop] of the dispatcher that [Start] made and
    returns no error. *)
Theorem Stop_errors_unstarted_and_delegates_started
    `{Env : Environment} (r : GceProcessor) (acc : Accumulator) :
  Stop (set_parallel None r) = (set_parallel None r, Some stopUnstartedError)
  ∧ Stop newGceProcessor = (newGceProcessor, Some stopUnstartedError)
  ∧ (Start r acc).2 = None
  ∧ ∃ p, parallel (Start r acc).1 = Some p
       ∧ Stop (Start r acc).1
           = (set_parallel (Some (Parallel_Stop p)) (Start r acc).1, None)
       ∧ Parallel_stopped (Parallel_Stop p) = true.
Proof.
  repeat split. unfold Start. simpl.
  eexists. split; [reflexivity|]. split; [reflexivity|].
  by destruct (Ordered r).
Qed.

(** ** The ordered dispatcher *)

Module OrderedProps.
Import Ordered.

Lemma consistent_New acc0 f q w : consistent acc0 f (New acc0 f q w).
Proof.
  split; simpl; try done.
  - intros s. lia.
  - by rewrite app_nil_r.
Qed.

Lemma consistent_Enqueue acc0 f item d :
  consistent acc0 f d → consistent acc0 f (Enqueue item d).
Proof.
  intros [Hfn Hseq Hcur Hpen Hbuf Hapart Hcov Hsink]. unfold Enqueue.
  destruct (halted d); [by split|].
  case_bool_decide; [by split|].
  split; simpl; try done.
  - rewrite length_app. simpl. lia.
  - lia.
  - intros s it. rewrite lookup_insert. case_decide as Hs.
    + intros [= <-]. subst s. split; [|lia].
      rewrite Hseq. by rewrite list_lookup_middle.
    + intros Hp. destruct (Hpen s it Hp). split; [|done].
      by apply lookup_app_l_Some.
  - intros s out Hb. destruct (Hbuf s out Hb) as (? & it & ? & ?).
    split; [done|]. exists it. split; [|done]. by apply lookup_app_l_Some.
  - intros s. rewrite lookup_insert. case_decide as Hs.
    + intros _. subst s. destruct (buffer d !! nextSeq d) as [out|] eqn:Hb; [|done].
      destruct (Hbuf _ _ Hb) as (_ & it & Hit & _).
      apply lookup_lt_Some in Hit. lia.
    + apply Hapart.
  - intros s Hs. destruct (decide (s = nextSeq d)) as [->|Hne].
    + left. rewrite lookup_insert_eq. by eexists.
    + rewrite lookup_insert_ne by done. apply Hcov. lia.
  - rewrite take_app_le by lia. done.
Qed.

Lemma settled_Enqueue item d : settled d → settled (Enqueue item d).
Proof.
  unfold settled, Enqueue. destruct (halted d); [done|]. by case_bool_decide.
Qed.

Lemma consistent_releaseOne acc0 f d d' :
  consistent acc0 f d → releaseOne d = Some d' → consistent acc0 f d'.
Proof.
  intros [Hfn Hseq Hcur Hpen Hbuf Hapart Hcov Hsink]. unfold releaseOne.
  destruct (buffer d !! nextToRelease d) as [out|] eqn:Hhead; [|done].
  intros [= <-].
  destruct (Hbuf _ _ Hhead) as (_ & it & Hit & Hout).
  assert (nextToRelease d < length (accepted d)) by (by apply lookup_lt_Some in Hit).
  split; simpl; try done.
  - lia.
  - intros s item Hp. destruct (Hpen s item Hp) as [? ?]. split; [done|].
    destruct (decide (s = nextToRelease d)) as [->|]; [|lia].
    rewrite Hapart in Hhead by (by eexists). done.
  - intros s o. rewrite lookup_delete. case_decide; [done|].
    intros Hb. destruct (Hbuf s o Hb) as [? ?]. split; [lia | done].
  - intros s Hp. rewrite lookup_delete. case_decide; [done | by apply Hapart].
  - intros s Hs. destruct (Hcov s) as [?|?]; [lia | by left |].
    right. rewrite lookup_delete_ne by lia. done.
  - rewrite (take_S_r _ _ _ Hit), flat_map_app, Hsink. simpl.
    unfold outputs at 3. rewrite Hout, app_nil_r. by rewrite app_assoc.
Qed.

Lemma releaseLoop_consistent acc0 f fuel d :
  consistent acc0 f d → consistent acc0 f (releaseLoop fuel d).
Proof.
  revert d. induction fuel as [|n IH]; intros d Hd; simpl; [done|].
  destruct (releaseOne d) as [d'|] eqn:Hone; [|done].
  apply IH. by eapply consistent_releaseOne.
Qed.

(** The fuel of [release] is enough: the loop stops at a cursor with no
    entry, not for want of turns. *)
Lemma releaseLoop_settled fuel d :
  size (buffer d) ≤ fuel → settled (releaseLoop fuel d).
Proof.
  revert d. induction fuel as [|n IH]; intros d Hsize; simpl.
  - assert (buffer d = ∅) as Hempty by (apply map_size_empty_iff; lia).
    unfold settled. by rewrite Hempty.
  - destruct (releaseOne d) as [d'|] eqn:Hone.
    + apply IH. unfold releaseOne in Hone.
      destruct (buffer d !! nextToRelease d) as [out|] eqn:Hhead; [|done].
      injection Hone as <-. simpl.
      rewrite map_size_delete_Some by (by eexists). lia.
    + unfold releaseOne in Hone. unfold settled.
      by destruct (buffer d !! nextToRelease d).
Qed.

Lemma release_reaches_gap d : settled (release d).
Proof. by apply releaseLoop_settled. Qed.

Lemma release_consistent acc0 f d :
  consistent acc0 f d → consistent acc0 f (release d).
Proof. apply releaseLoop_consistent. Qed.

(** The release step touches the buffer, the cursor and the sink only. *)
Lemma releaseLoop_keeps fuel d :
  let d' := releaseLoop fuel d in
  fn d' = fn d ∧ pending d' = pending d ∧ accepted d' = accepted d
  ∧ nextSeq d' = nextSeq d ∧ crashed d' = crashed d ∧ stopped d' = stopped d.
Proof.
  revert d. induction fuel as [|n IH]; intros d; simpl; [done|].
  destruct (releaseOne d) as [d1|] eqn:Hone; [|done].
  unfold releaseOne in Hone. destruct (buffer d !! nextToRelease d); [|done].
  injection Hone as <-. apply (IH (mk _ _ _ _ _ _ _ _ _ _ _)).
Qed.

Lemma release_keeps d :
  fn (release d) = fn d ∧ pending (release d) = pending d
  ∧ accepted (release d) = accepted d ∧ nextSeq (release d) = nextSeq d
  ∧ crashed (release d) = crashed d ∧ stopped (release d) = stopped d.
Proof. apply releaseLoop_keeps. Qed.

(** Rewrites the fields that [release] keeps, wherever it occurs. *)
Ltac release_kept :=
  match goal with
  | |- context [release ?x] =>
      let H := fresh in
      destruct (release_keeps x) as (?H & ?H & ?H & ?H & ?H & ?H); simpl in *
  end.

Lemma consistent_complete acc0 f s d :
  consistent acc0 f d → consistent acc0 f (complete s d).
Proof.
  intros Hd. pose proof Hd as [Hfn Hseq Hcur Hpen Hbuf Hapart Hcov Hsink].
  unfold complete.
  destruct (crashed d) as [p|]; [done|].
  destruct (pending d !! s) as [item|] eqn:Hitem; [|done].
  destruct (fn d item) as [out|p] eqn:Hrun; [|by split].
  apply release_consistent. destruct (Hpen s item Hitem) as [Hacc Hle].
  split; simpl; try done.
  - intros s' it. rewrite lookup_delete. case_decide; [done | apply Hpen].
  - intros s' o. rewrite lookup_insert. case_decide as Hs.
    + intros [= <-]. subst s'. split; [done|]. exists item. by rewrite <- Hfn.
    + apply Hbuf.
  - intros s'. rewrite lookup_delete. case_decide; [by intros [? ?]|].
    intros Hp. rewrite lookup_insert_ne by done. by apply Hapart.
  - intros s' Hs. destruct (decide (s' = s)) as [->|Hne].
    + right. rewrite lookup_insert_eq. by eexists.
    + rewrite lookup_delete_ne, lookup_insert_ne by done. by apply Hcov.
Qed.

Lemma settled_complete s d : settled d → settled (complete s d).
Proof.
  intros Hd. unfold complete.
  destruct (crashed d); [done|]. destruct (pending d !! s); [|done].
  destruct (fn d _); [apply release_reaches_gap | done].
Qed.

Lemma complete_crashed s d : crashed d ≠ None → complete s d = d.
Proof. unfold complete. by destruct (crashed d). Qed.

Lemma complete_accepted s d : accepted (complete s d) = accepted d.
Proof.
  unfold complete. destruct (crashed d); [done|]. destruct (pending d !! s); [|done].
  destruct (fn d _); [|done]. release_kept. congruence.
Qed.

(** A call that comes back without a panic leaves the pending slots. *)
Lemma complete_pending s d :
  crashed (complete s d) = None → pending (complete s d) = delete s (pending d).
Proof.
  unfold complete. destruct (crashed d) eqn:Hc; [by rewrite Hc|].
  destruct (pending d !! s) eqn:Hs; [|by rewrite delete_id].
  destruct (fn d _); [|done]. intros _. release_kept. congruence.
Qed.

(** No call panics when the enrichment function returns on every item. *)
Lemma complete_no_crash acc0 f s d :
  consistent acc0 f d → (∀ item, item ∈ accepted d → returns (f item)) →
  crashed d = None → crashed (complete s d) = None.
Proof.
  intros [Hfn _ _ Hpen _ _ _ _] Hret Hc. unfold complete. rewrite Hc.
  destruct (pending d !! s) as [item|] eqn:Hitem; [|done].
  destruct (Hpen s item Hitem) as [Hacc _].
  destruct (Hret item) as [out Hout]; [by eapply list_elem_of_lookup_2|].
  rewrite Hfn, Hout. release_kept. congruence.
Qed.

Lemma completeAll_consistent acc0 f l d :
  consistent acc0 f d → consistent acc0 f (completeAll d l).
Proof.
  revert d. induction l as [|s l IH]; intros d Hd; [done|].
  apply IH. by apply consistent_complete.
Qed.

Lemma completeAll_settled l d : settled d → settled (completeAll d l).
Proof.
  revert d. induction l as [|s l IH]; intros d Hd; [done|].
  apply IH. by apply settled_complete.
Qed.

Lemma completeAll_crashed l d : crashed d ≠ None → completeAll d l = d.
Proof.
  induction l as [|s l IH]; intros Hc; [done|].
  simpl. rewrite complete_crashed by done. by apply IH.
Qed.

Lemma completeAll_accepted l d : accepted (completeAll d l) = accepted d.
Proof.
  revert d. induction l as [|s l IH]; intros d; [done|].
  simpl. fold (completeAll (complete s d) l). by rewrite IH, complete_accepted.
Qed.

Lemma completeAll_pending l d s :
  crashed (completeAll d l) = None → s ∈ l → pending (completeAll d l) !! s = None.
Proof.
  revert d. induction l as [|x l IH]; intros d Hc Hs; [inversion Hs|].
  simpl in *. fold (completeAll (complete x d) l) in *.
  destruct (decide (s ∈ l)) as [Hin|Hout]; [by apply IH|].
  apply elem_of_cons in Hs as [->|Hs]; [|done].
  assert (crashed (complete x d) = None) as Hone.
  { destruct (crashed (complete x d)) eqn:E; [|done].
    rewrite completeAll_crashed in Hc by congruence. congruence. }
  clear IH Hout. revert Hc.
  assert (pending (complete x d) !! x = None) as Hgone
    by (rewrite complete_pending by done; apply lookup_delete_eq).
  generalize dependent (complete x d). clear d.
  induction l as [|y l IH]; intros d Hd Hgone Hc; [done|].
  simpl in *. fold (completeAll (complete y d) l) in *.
  assert (crashed (complete y d) = None) as Hy.
  { destruct (crashed (complete y d)) eqn:E; [|done].
    rewrite completeAll_crashed in Hc by congruence. congruence. }
  apply IH; [done| |done].
  rewrite complete_pending by done. rewrite lookup_delete. by case_decide.
Qed.

Lemma completeAll_no_crash acc0 f l d :
  consistent acc0 f d → (∀ item, item ∈ accepted d → returns (f item)) →
  crashed d = None → crashed (completeAll d l) = None.
Proof.
  revert d. induction l as [|s l IH]; intros d Hd Hret Hc; [done|].
  simpl. fold (completeAll (complete s d) l). apply IH.
  - by apply consistent_complete.
  - by rewrite complete_accepted.
  - by eapply complete_no_crash.
Qed.

Lemma complete_pending_sub s d s' item :
  pending (complete s d) !! s' = Some item → pending d !! s' = Some item.
Proof.
  unfold complete. destruct (crashed d); [done|].
  destruct (pending d !! s) eqn:Hs; [|done].
  destruct (fn d _); [|done]. release_kept.
  match goal with H : pending (release _) = _ |- _ => rewrite H end.
  rewrite lookup_delete. by case_decide.
Qed.

Lemma completeAll_pending_sub l d s item :
  pending (completeAll d l) !! s = Some item → pending d !! s = Some item.
Proof.
  revert d. induction l as [|x l IH]; intros d; [done|].
  simpl. fold (completeAll (complete x d) l).
  intros H%IH. by eapply complete_pending_sub.
Qed.

Lemma Stop_completeAll d :
  Stop d =
    let d' := completeAll d (elements (dom (pending d))) in
    mk (fn d') (maxQueueSize d') (concurrencyLimit d') (nextSeq d') (accepted d')
       (pending d') (buffer d') (nextToRelease d') (sink d') true (crashed d').
Proof. reflexivity. Qed.

Lemma consistent_Stop acc0 f d : consistent acc0 f d → consistent acc0 f (Stop d).
Proof.
  intros Hd. rewrite Stop_completeAll.
  by destruct (completeAll_consistent acc0 f (elements (dom (pending d))) d Hd).
Qed.

Lemma settled_Stop d : settled d → settled (Stop d).
Proof.
  intros Hd. rewrite Stop_completeAll.
  apply (completeAll_settled (elements (dom (pending d))) d Hd).
Qed.

(** [Stop] leaves no call in flight, unless a call has panicked. *)
Lemma Stop_drains d : crashed (Stop d) = None → pending (Stop d) = ∅.
Proof.
  rewrite Stop_completeAll. simpl. intros Hc. apply map_empty. intros s.
  destruct (decide (s ∈ elements (dom (pending d)))) as [Hin|Hout].
  - by apply completeAll_pending.
  - destruct (pending (completeAll d _) !! s) as [item|] eqn:Hs; [|done].
    apply completeAll_pending_sub in Hs. exfalso. apply Hout.
    apply elem_of_elements, elem_of_dom. by eexists.
Qed.

Lemma consistent_step acc0 f d ev : consistent acc0 f d → consistent acc0 f (step d ev).
Proof.
  destruct ev; simpl;
    [apply consistent_Enqueue | apply consistent_complete | apply consistent_Stop].
Qed.

Lemma settled_step d ev : settled d → settled (step d ev).
Proof.
  destruct ev; simpl;
    [apply settled_Enqueue | apply settled_complete | apply settled_Stop].
Qed.

Lemma consistent_exec acc0 f evs d :
  consistent acc0 f d → consistent acc0 f (exec d evs).
Proof.
  revert d. induction evs as [|ev evs IH]; intros d Hd; [done|].
  apply IH. by apply consistent_step.
Qed.

Lemma settled_exec evs d : settled d → settled (exec d evs).
Proof.
  revert d. induction evs as [|ev evs IH]; intros d Hd; [done|].
  apply IH. by apply settled_step.
Qed.

(** With no call in flight, everything accepted has been released. *)
Lemma drained acc0 f d :
  consistent acc0 f d → settled d → pending d = ∅ →
  nextToRelease d = length (accepted d)
  ∧ sink d = acc0 ++ flat_map (outputs f) (accepted d).
Proof.
  intros [Hfn Hseq Hcur Hpen Hbuf Hapart Hcov Hsink] Hgap Hnone.
  assert (nextToRelease d = length (accepted d)) as Hall.
  { destruct (decide (nextToRelease d = nextSeq d)) as [|Hne]; [congruence|].
    destruct (Hcov (nextToRelease d)) as [[x Hx]|[x Hx]]; [lia| |].
    - rewrite Hnone in Hx. done.
    - unfold settled in Hgap. congruence. }
  split; [done|]. by rewrite Hsink, Hall, take_ge.
Qed.

Lemma Enqueue_accepted item d :
  accepted (Enqueue item d) = accepted d
  ∨ accepted (Enqueue item d) = accepted d ++ [item].
Proof.
  unfold Enqueue. destruct (halted d); [by left|].
  case_bool_decide; [by left | by right].
Qed.

Lemma Stop_accepted d : accepted (Stop d) = accepted d.
Proof. rewrite Stop_completeAll. simpl. apply completeAll_accepted. Qed.

Lemma exec_accepted evs d :
  ∃ more, accepted (exec d evs) = accepted d ++ more ∧ sublist more (enqueued evs).
Proof.
  revert d. induction evs as [|ev evs IH]; intros d.
  - exists []. by rewrite app_nil_r.
  - destruct (IH (step d ev)) as (more & Hacc & Hsub).
    change (exec d (ev :: evs)) with (exec (step d ev) evs). rewrite Hacc.
    destruct ev as [item|s|]; unfold step, enqueued; simpl omap; fold (enqueued evs).
    + destruct (Enqueue_accepted item d) as [->| ->].
      * exists more. split; [done|]. by apply sublist_cons.
      * exists (item :: more). split; [by rewrite <- app_assoc|].
        by apply sublist_skip.
    + exists more. by rewrite complete_accepted.
    + exists more. by rewrite Stop_accepted.
Qed.

Lemma exec_completions l d : exec d (map EvComplete l) = completeAll d l.
Proof.
  revert d. induction l as [|s l IH]; intros d; [done|]. simpl. apply IH.
Qed.

Lemma Enqueue_room item d :
  stopped d = false → crashed d = None →
  (Z.of_nat (nextSeq d - nextToRelease d) < maxQueueSize d)%Z →
  Enqueue item d =
    mk (fn d) (maxQueueSize d) (concurrencyLimit d)
       (S (nextSeq d)) (accepted d ++ [item])
       (<[nextSeq d := item]> (pending d)) (buffer d)
       (nextToRelease d) (sink d) (stopped d) (crashed d).
Proof.
  intros Hs Hc Hroom. unfold Enqueue, halted. rewrite Hs, Hc. simpl.
  by rewrite bool_decide_eq_false_2 by lia.
Qed.

(** While the queue has room, every [Enqueue] is accepted. *)
Lemma exec_enqueue_all items d :
  stopped d = false → crashed d = None → nextToRelease d = 0 →
  (Z.of_nat (nextSeq d + length items) ≤ maxQueueSize d)%Z →
  accepted (exec d (map EvEnqueue items)) = accepted d ++ items
  ∧ crashed (exec d (map EvEnqueue items)) = None.
Proof.
  revert d. induction items as [|item items IH]; intros d Hs Hc Hn Hroom.
  - simpl. by rewrite app_nil_r.
  - change (exec d (map EvEnqueue (item :: items)))
      with (exec (Enqueue item d) (map EvEnqueue items)).
    simpl in Hroom. rewrite Enqueue_room by (done || lia).
    set (d1 := mk _ _ _ _ _ _ _ _ _ _ _).
    destruct (IH d1) as [Hacc Hcr]; try done.
    { subst d1. simpl. lia. }
    split; [|done]. rewrite Hacc. subst d1. simpl. by rewrite <- app_assoc.
Qed.

(** Every item enqueued, every call back in whatever order, none of them
    panicking: the sink has the results in the order of the items. *)
Lemma all_released acc0 f q w items order :
  (Z.of_nat (length items) ≤ q)%Z →
  (∀ s, s < length items → s ∈ order) →
  (∀ item, item ∈ items → returns (f item)) →
  sink (exec (New acc0 f q w) (map EvEnqueue items ++ map EvComplete order))
    = acc0 ++ flat_map (outputs f) items.
Proof.
  intros Hroom Hevery Hret. unfold exec. rewrite foldl_app.
  fold (exec (New acc0 f q w) (map EvEnqueue items)).
  set (d1 := exec (New acc0 f q w) (map EvEnqueue items)).
  fold (exec d1 (map EvComplete order)). rewrite exec_completions.
  destruct (exec_enqueue_all items (New acc0 f q w)) as [Hacc Hc]; try done.
  fold d1 in Hacc, Hc. simpl in Hacc.
  assert (consistent acc0 f d1) as Hd1
    by (apply consistent_exec, consistent_New).
  assert (settled d1) as Hs1 by (by apply settled_exec).
  assert (crashed (completeAll d1 order) = None) as Hc2.
  { eapply completeAll_no_crash; [done| |done]. by rewrite Hacc. }
  destruct (drained acc0 f (completeAll d1 order)) as [_ Hsink].
  - by apply completeAll_consistent.
  - by apply completeAll_settled.
  - apply map_empty. intros s.
    destruct (decide (s ∈ order)) as [Hin|Hout]; [by apply completeAll_pending|].
    destruct (pending (completeAll d1 order) !! s) as [item|] eqn:Hs; [|done].
    apply completeAll_pending_sub in Hs.
    destruct (c_pending _ _ _ Hd1 s item Hs) as [Hitem _].
    apply lookup_lt_Some in Hitem. rewrite Hacc in Hitem.
    exfalso. by apply Hout, Hevery.
  - by rewrite Hsink, completeAll_accepted, Hacc.
Qed.

End OrderedProps.

(** C1: a processor started in ordered mode hands [asyncAdd] to the ordered
    dispatcher. Whatever the calls made on that dispatcher and the order in
    which the enrichment calls come back, the sink holds, after what it held
    at the start, the results of the first [nextToRelease] accepted items,
    in the order in which they were enqueued. When every item has room in
    the queue, every enrichment call returns, and the calls come back in any
    order at all, the sink ends with the results of all the items in enqueue
    order. *)
Theorem ordered_sink_follows_enqueue_order
    `{Env : Environment} (r : GceProcessor) (acc : Accumulator) :
  Ordered r = true →
  ∃ d0,
    parallel (Start r acc).1 = Some (POrdered d0)
    ∧ Ordered.fn d0 = enrichFn (set_gceClient (Some NewClient) r)
    ∧ Ordered.sink d0 = acc
    ∧ (∀ evs,
         let d := Ordered.exec d0 evs in
         sublist (Ordered.accepted d) (Ordered.enqueued evs)
         ∧ Ordered.sink d
             = acc ++ flat_map (outputs (Ordered.fn d0))
                        (take (Ordered.nextToRelease d) (Ordered.accepted d)))
    ∧ (∀ items order,
         (Z.of_nat (length items) ≤ DefaultMaxOrderedQueueSize)%Z →
         order ≡ₚ seq 0 (length items) →
         (∀ item, item ∈ items → returns (Ordered.fn d0 item)) →
         Ordered.sink
           (Ordered.exec d0 (map Ordered.EvEnqueue items ++ map Ordered.EvComplete order))
           = acc ++ flat_map (outputs (Ordered.fn d0)) items).
Proof.
  intros Hordered. unfold Start. simpl. rewrite Hordered.
  set (f := enrichFn _).
  exists (Ordered.New acc f DefaultMaxOrderedQueueSize (MaxParallelCalls r)).
  repeat split.
  - destruct (OrderedProps.exec_accepted evs
                (Ordered.New acc f DefaultMaxOrderedQueueSize (MaxParallelCalls r)))
      as (more & Hacc & Hsub).
    by rewrite Hacc.
  - apply (Ordered.c_sink acc f).
    apply OrderedProps.consistent_exec, OrderedProps.consistent_New.
  - intros items order Hroom Hperm Hret.
    apply OrderedProps.all_released; [done| |done].
    intros s Hs. rewrite Hperm. apply elem_of_seq. lia.
Qed.

Lemma ordered_sink_follows_enqueue_order_witness :
  ∃ d0,
    parallel (@Start sampleEnv orderedGce []).1 = Some (POrdered d0)
    ∧ Ordered.sink
        (Ordered.exec d0 (map Ordered.EvEnqueue [cpu; mem; disk]
                          ++ map Ordered.EvComplete [2; 1; 0]))
      = [cpu; mem; disk].
Proof.
  destruct (@ordered_sink_follows_enqueue_order sampleEnv orderedGce [] eq_refl)
    as (d0 & Hstart & Hfn & _ & _ & Hall).
  exists d0. split; [exact Hstart|].
  rewrite (Hall [cpu; mem; disk] [2; 1; 0]).
  - rewrite Hfn. vm_compute. reflexivity.
  - vm_compute. discriminate.
  - symmetry. apply (Permutation_rev [0; 1; 2]).
  - intros item Hitem. rewrite Hfn.
    apply elem_of_cons in Hitem as [->|Hitem]; [by eexists|].
    apply elem_of_cons in Hitem as [->|Hitem]; [by eexists|].
    apply elem_of_cons in Hitem as [->|Hitem]; [by eexists|].
    inversion Hitem.
Defined.

(** The scenario of the spec, run: the third call back first, the first
    last; nothing reaches the sink before the first is back. *)
Example ordered_scenario :
  let d0 := Ordered.New [] (@enrichFn sampleEnv (onGce sampleClient ∅)) 10000 3 in
  let enq := map Ordered.EvEnqueue [cpu; mem; disk] in
  Ordered.sink (Ordered.exec d0 (enq ++ map Ordered.EvComplete [2; 1])) = []
  ∧ Ordered.sink (Ordered.exec d0 (enq ++ map Ordered.EvComplete [2; 1; 0]))
      = [cpu; mem; disk]
  ∧ Ordered.sink (Ordered.exec d0 (enq ++ map Ordered.EvComplete [0; 2]))
      = [cpu]
  ∧ Ordered.sink (Ordered.exec d0 (enq ++ [Ordered.EvComplete 1; Ordered.EvStop]))
      = [cpu; mem; disk].
Proof. vm_compute. done. Qed.

(** * Further properties of the processor *)

(** ** [Init], beyond the empty tag set *)

Lemma initLoop_keeps_rest tags r :
  Log (initLoop tags r).1 = Log r ∧ instanceID (initLoop tags r).1 = instanceID r.
Proof.
  revert r. induction tags as [|tag rest IH]; intros r; simpl; [done|].
  destruct ((String.length tag =? 0)%nat || negb (isTagPermitted tag)); [done|].
  apply (IH (set_allowTagsMap _ r)).
Qed.

Lemma initLoop_stops_at_refused tags r e :
  (initLoop tags r).2 = Some e →
  ∃ before tag after,
    tags = before ++ tag :: after ∧ refusedEntry tag ∧
    Forall (λ t, ¬ refusedEntry t) before ∧ e = unpermittedTagError tag ∧
    allowTagsMap (initLoop tags r).1 = list_to_set before ∪ allowTagsMap r.
Proof.
  revert r. induction tags as [|tag rest IH]; intros r; simpl; [discriminate|].
  destruct ((String.length tag =? 0)%nat || negb (isTagPermitted tag)) eqn:Htest.
  - intros [= <-]. exists [], tag, rest. apply refused_test in Htest.
    repeat split; try done. simpl. set_solver.
  - intros (before & t & after & -> & Hbad & Hok & -> & Hmap)%IH.
    exists (tag :: before), t, after. repeat split; try done.
    + constructor; [|done]. rewrite <- refused_test. congruence.
    + rewrite Hmap. simpl. set_solver.
Qed.

Lemma initLoop_permitted tags r :
  allowTagsMap r ⊆ permittedTags → allowTagsMap (initLoop tags r).1 ⊆ permittedTags.
Proof.
  revert r. induction tags as [|tag rest IH]; intros r Hsub; simpl; [done|].
  destruct ((String.length tag =? 0)%nat || negb (isTagPermitted tag)) eqn:Htest; [done|].
  apply IH. simpl. apply orb_false_iff in Htest as [_ Hperm].
  apply negb_false_iff in Hperm. unfold isTagPermitted in Hperm.
  apply bool_decide_eq_true in Hperm. set_solver.
Qed.

(** X1: on any processor, whatever its tag set before, an [Init] that
    returns no error leaves the tag set as the old one joined with the
    configured names. With or without error, [Init] hands one line to the
    logger and changes nothing but the tag set and the log. *)
Theorem Init_adds_to_the_tag_set (r : GceProcessor) :
  ((Init r).2 = None →
     allowTagsMap (Init r).1 = list_to_set (AllowTags r) ∪ allowTagsMap r)
  ∧ Log (Init r).1 = Log r ++ ["Initializing GCE Processor"]
  ∧ AllowTags (Init r).1 = AllowTags r
  ∧ Timeout (Init r).1 = Timeout r
  ∧ Ordered (Init r).1 = Ordered r
  ∧ MaxParallelCalls (Init r).1 = MaxParallelCalls r
  ∧ gceClient (Init r).1 = gceClient r
  ∧ parallel (Init r).1 = parallel r
  ∧ instanceID (Init r).1 = instanceID r.
Proof.
  unfold Init. set (r0 := set_Log _ r).
  destruct (initLoop_frame (AllowTags r) r0) as (Hp & Hc & Ha & Ht & Ho & Hm).
  destruct (initLoop_keeps_rest (AllowTags r) r0) as [Hl Hi].
  repeat split; try done.
  intros Hok. by rewrite (initLoop_recorded _ _ Hok).
Qed.

(** X2: an [Init] that returns an error is not undone: the error names the
    first entry of the allow-list that is empty or unknown, the entries
    before it are in the tag set already, and the entries after it have not
    been looked at. *)
Theorem Init_error_keeps_earlier_entries (r : GceProcessor) (e : error) :
  (Init r).2 = Some e →
  ∃ before tag after,
    AllowTags r = before ++ tag :: after
    ∧ refusedEntry tag
    ∧ Forall (λ t, String.length t ≠ 0 ∧ knownTag t) before
    ∧ e = "un-permitted metadata tag specified in configuration: " +:+ tag
    ∧ allowTagsMap (Init r).1 = list_to_set before ∪ allowTagsMap r.
Proof.
  unfold Init. set (r0 := set_Log _ r).
  intros (before & tag & after & Hsplit & Hbad & Hok & He & Hmap)%initLoop_stops_at_refused.
  exists before, tag, after. repeat split; try done.
  eapply Forall_impl; [exact Hok|]. intros t Ht. unfold refusedEntry in Ht.
  split; [|destruct (decide (knownTag t)) as [|Hn]; [done|]].
  - intros Hlen. apply Ht. by left.
  - exfalso. apply Ht. by right.
Qed.

Lemma Init_error_keeps_earlier_entries_witness :
  ∃ before tag after,
    ["zone"; "region"; "name"] = before ++ tag :: after
    ∧ allowTagsMap (Init (configured ["zone"; "region"; "name"])).1
        = list_to_set before ∪ ∅.
Proof.
  destruct (Init_error_keeps_earlier_entries
              (configured ["zone"; "region"; "name"])
              "un-permitted metadata tag specified in configuration: region"
              eq_refl)
    as (before & tag & after & Hsplit & _ & _ & _ & Hmap).
  exists before, tag, after. split; [exact Hsplit | exact Hmap].
Defined.

(** X3: [Init] keeps the tag set inside the permitted names: if every name
    in it was permitted before the call, so is every name after it, error
    or not. *)
Theorem Init_keeps_tag_set_permitted (r : GceProcessor) :
  (∀ tag, tag ∈ allowTagsMap r → isTagPermitted tag = true) →
  ∀ tag, tag ∈ allowTagsMap (Init r).1 → isTagPermitted tag = true.
Proof.
  intros Hbefore tag Htag. unfold isTagPermitted. apply bool_decide_eq_true.
  revert tag Htag. change (allowTagsMap (Init r).1 ⊆ permittedTags).
  unfold Init. apply initLoop_permitted. intros t Ht. simpl in Ht.
  specialize (Hbefore t Ht). unfold isTagPermitted in Hbefore.
  by apply bool_decide_eq_true in Hbefore.
Qed.

Lemma Init_keeps_tag_set_permitted_witness :
  isTagPermitted "zone" = true.
Proof.
  apply (Init_keeps_tag_set_permitted (configured ["zone"; "name"])).
  - intros tag Htag. change (tag ∈ (∅ : gset string)) in Htag.
    by apply not_elem_of_empty in Htag.
  - vm_compute. reflexivity.
Defined.

(** X4: [Init] can be called again: after an [Init] without error, a second
    [Init] returns no error either and leaves the tag set as it is. *)
Theorem Init_twice (r : GceProcessor) :
  (Init r).2 = None →
  (Init (Init r).1).2 = None
  ∧ allowTagsMap (Init (Init r).1).1 = allowTagsMap (Init r).1.
Proof.
  intros Hok.
  assert (Hnone : ¬ ∃ tag, tag ∈ AllowTags r ∧ refusedEntry tag).
  { unfold Init in Hok. rewrite <- initLoop_error. intros [e He].
    rewrite He in Hok. discriminate. }
  assert (Htags : AllowTags (Init r).1 = AllowTags r).
  { unfold Init.
    by destruct (initLoop_frame (AllowTags r)
                   (set_Log (Log r ++ ["Initializing GCE Processor"]) r))
      as (_ & _ & -> & _). }
  assert (Hok2 : (Init (Init r).1).2 = None).
  { unfold Init at 1. destruct (initLoop _ _).2 as [e|] eqn:He; [|done].
    exfalso. apply Hnone. rewrite <- Htags.
    apply (initLoop_error (AllowTags (Init r).1)
             (set_Log (Log (Init r).1 ++ ["Initializing GCE Processor"]) (Init r).1)).
    by exists e. }
  split; [done|].
  unfold Init at 1. unfold Init at 1 in Hok2.
  rewrite (initLoop_recorded _ _ Hok2). simpl. rewrite Htags.
  unfold Init. unfold Init in Hok. rewrite (initLoop_recorded _ _ Hok). set_solver.
Qed.

Lemma Init_twice_witness :
  (Init (Init (configured ["zone"; "name"])).1).2 = None.
Proof.
  apply (Init_twice (configured ["zone"; "name"])). vm_compute. reflexivity.
Defined.



(** ** [getTagFromGCE] and the permitted names *)


Lemma getTagFromGCE_default r tag w :
  ¬ knownTag tag → getTagFromGCE r tag w = (Returned ("", None), w).
Proof.
  intros Hunknown. unfold getTagFromGCE, knownTag in *.
  repeat case_decide; tauto || reflexivity.
Qed.














(** ** [asyncAdd], call by call *)

Lemma forRange_returns_inv r l w :
  (forRange l (addTagFromGCE r) w).1 = Returned tt →
  ∀ tag, tag ∈ l → ∃ v, lookupOutcome r tag = Returned (v, None).
Proof.
  revert w. induction l as [|x rest IH]; intros w Hret tag Htag; [inversion Htag|].
  rewrite forRange_cons, addTagFromGCE_run in Hret. simpl in Hret.
  destruct (lookupOutcome r x) as [[val [e|]]|p] eqn:Hx; simpl in Hret;
    try discriminate.
  apply elem_of_cons in Htag as [->|Htag]; [by exists val|].
  by eapply IH.
Qed.

(** What the loop prints and sends: a turn prints its tag before the lookup
    and the loop stops at the first panic. *)
Lemma forRange_trace r l w :
  ∃ done,
    done `prefix_of` l
    ∧ w_stdout (forRange l (addTagFromGCE r) w).2 = w_stdout w ++ done
    ∧ w_calls (forRange l (addTagFromGCE r) w).2
        = w_calls w ++ flat_map (lookupCalls r) done
    ∧ ((forRange l (addTagFromGCE r) w).1 = Returned tt → done = l).
Proof.
  revert w. induction l as [|x rest IH]; intros w.
  - exists []. simpl. by rewrite !app_nil_r.
  - rewrite forRange_cons, addTagFromGCE_run. simpl.
    destruct (lookupOutcome r x) as [[val [e|]]|p] eqn:Hx; simpl.
    + exists [x]. repeat split; try done.
      * apply prefix_cons, prefix_nil.
      * simpl. by rewrite app_nil_r.
    + destruct (IH (mkWorld (AddTag x val (w_metric w))
                            (w_calls w ++ lookupCalls r x) (w_stdout w ++ [x])))
        as (done & Hpre & Hout & Hcalls & Hall).
      exists (x :: done). repeat split.
      * by apply prefix_cons.
      * rewrite Hout. simpl. by rewrite <- app_assoc.
      * rewrite Hcalls. simpl. by rewrite <- app_assoc.
      * intros Hret. by rewrite (Hall Hret).
    + exists [x]. repeat split; try done.
      * apply prefix_cons, prefix_nil.
      * simpl. by rewrite app_nil_r.
Qed.

Lemma metric_eq (m1 m2 : Metric) :
  m_name m1 = m_name m2 → m_fields m1 = m_fields m2 → m_time m1 = m_time m2 →
  (∀ k, m_tags m1 !! k = m_tags m2 !! k) → m1 = m2.
Proof.
  destruct m1, m2. simpl. intros -> -> -> Htags. f_equal. by apply map_eq.
Qed.

Section AsyncAddMore.
Context `{Env : Environment}.

Lemma runAsyncAdd_returns_inv r metric :
  returns (runAsyncAdd r metric).1 →
  ∀ tag, tag ∈ allowTagsMap r → ∃ v, lookupOutcome r tag = Returned (v, None).
Proof.
  intros [out Hout] tag Htag. unfold runAsyncAdd in Hout. rewrite asyncAdd_run in Hout.
  apply (forRange_returns_inv r (rangeKeys (allowTagsMap r)) (mkWorld metric [] [])).
  - by destruct (forRange _ _ _) as [[[]|p] w'].
  - by apply rangeKeys_elem.
Qed.

(** The metric a call returns when every lookup succeeds. *)
Lemma runAsyncAdd_success r metric :
  (∀ tag, tag ∈ allowTagsMap r → ∃ v, lookupOutcome r tag = Returned (v, None)) →
  ∃ m', (runAsyncAdd r metric).1 = Returned [m']
    ∧ m' = w_metric (runAsyncAdd r metric).2
    ∧ m_name m' = m_name metric
    ∧ m_fields m' = m_fields metric
    ∧ m_time m' = m_time metric
    ∧ (∀ k, k ∉ allowTagsMap r → m_tags m' !! k = m_tags metric !! k)
    ∧ (∀ k v, k ∈ allowTagsMap r → lookupOutcome r k = Returned (v, None) →
         m_tags m' !! k = Some v).
Proof.
  intros Hall.
  destruct (runAsyncAdd_grows r metric) as [Hn Hf Ht Ho _ _].
  destruct (forRange_success r (rangeKeys (allowTagsMap r)) (mkWorld metric [] []))
    as [Hret Htags].
  { intros tag Htag. apply Hall. by apply rangeKeys_elem. }
  exists (w_metric (runAsyncAdd r metric).2).
  repeat split; try done.
  - unfold runAsyncAdd. rewrite asyncAdd_run.
    destruct (forRange _ _ _) as [[[]|p] w']; simpl in *; congruence.
  - intros k Hout. apply Ho. by rewrite rangeKeys_elem.
  - intros k v Hk Hv. unfold runAsyncAdd. rewrite asyncAdd_run.
    specialize (Htags k v (proj2 (rangeKeys_elem _ _) Hk) Hv).
    by destruct (forRange _ _ _) as [[[]|p] w'].
Qed.

Lemma runAsyncAdd_trace r metric :
  ∃ done,
    done `prefix_of` rangeKeys (allowTagsMap r)
    ∧ w_stdout (runAsyncAdd r metric).2 = done
    ∧ w_calls (runAsyncAdd r metric).2 = flat_map (lookupCalls r) done
    ∧ (returns (runAsyncAdd r metric).1 → done = rangeKeys (allowTagsMap r)).
Proof.
  destruct (forRange_trace r (rangeKeys (allowTagsMap r)) (mkWorld metric [] []))
    as (done & Hpre & Hout & Hcalls & Hall).
  exists done. unfold runAsyncAdd. rewrite asyncAdd_run.
  destruct (forRange _ _ _) as [[[]|p] w'] eqn:Hrun; simpl in *;
    repeat split; try done.
  - intros _. by apply Hall.
  - intros [out Hout']. discriminate.
Qed.

(** X9: a call of [asyncAdd] returns if and only if the lookup of every tag
    of the allow-set returns a value and no error; in every other case it
    panics. *)
Theorem asyncAdd_returns_iff_every_lookup_succeeds (r : GceProcessor) (metric : Metric) :
  (returns (runAsyncAdd r metric).1
   ↔ ∀ tag, tag ∈ allowTagsMap r → ∃ v, lookupOutcome r tag = Returned (v, None))
  ∧ (¬ returns (runAsyncAdd r metric).1 → ∃ p, (runAsyncAdd r metric).1 = Panicked p).
Proof.
  split; [split|].
  - apply runAsyncAdd_returns_inv.
  - intros Hall. destruct (runAsyncAdd_success r metric Hall) as (m' & Hret & _).
    by exists [m'].
  - intros Hnot. destruct (runAsyncAdd r metric).1 as [out|p]; [|by exists p].
    exfalso. apply Hnot. by exists out.
Qed.

(** X11: [asyncAdd] applied to the metric it has returned returns it again,
    unchanged: the tags it sets are set already. *)
Theorem asyncAdd_again_changes_nothing (r : GceProcessor) (metric m' : Metric) :
  (runAsyncAdd r metric).1 = Returned [m'] →
  (runAsyncAdd r m').1 = Returned [m'].
Proof.
  intros Hret.
  assert (Hall := runAsyncAdd_returns_inv r metric (ex_intro _ _ Hret)).
  destruct (runAsyncAdd_success r metric Hall) as (m1 & Hret1 & _ & _ & _ & _ & _ & Hin1).
  assert (m1 = m') as -> by congruence.
  destruct (runAsyncAdd_success r m' Hall) as (m2 & Hret2 & _ & Hn & Hf & Ht & Hout & Hin).
  rewrite Hret2. do 2 f_equal. apply metric_eq; try done.
  intros k. destruct (decide (k ∈ allowTagsMap r)) as [Hk|Hk]; [|by apply Hout].
  destruct (Hall k Hk) as [v Hv]. by rewrite (Hin k v Hk Hv), (Hin1 k v Hk Hv).
Qed.

(** X12: a call of [asyncAdd] prints the names of the tags it visits, one
    line each, and nothing else: the lines are a prefix of the visit of the
    allow-set, and when the call returns they are the whole allow-set, each
    name once. *)
Theorem asyncAdd_prints_the_tags_it_visits (r : GceProcessor) (metric : Metric) :
  w_stdout (runAsyncAdd r metric).2 `prefix_of` rangeKeys (allowTagsMap r)
  ∧ (returns (runAsyncAdd r metric).1 →
       w_stdout (runAsyncAdd r metric).2 ≡ₚ elements (allowTagsMap r)).
Proof.
  destruct (runAsyncAdd_trace r metric) as (done & Hpre & Hout & _ & Hall).
  rewrite Hout. split; [done|].
  intros Hret. rewrite (Hall Hret). apply rangeKeys_perm.
Qed.


(** X14: a name in the tag set that the switch does not know (one that did
    not come through [Init]) is no error for [asyncAdd]: when the call
    returns, the metric carries that tag with the empty string as value. *)
Theorem asyncAdd_sets_unknown_tag_to_empty
    (r : GceProcessor) (metric : Metric) (tag : string) :
  tag ∈ allowTagsMap r → ¬ knownTag tag → returns (runAsyncAdd r metric).1 →
  ∃ m', (runAsyncAdd r metric).1 = Returned [m'] ∧ m_tags m' !! tag = Some "".
Proof.
  intros Htag Hunknown Hret.
  assert (Hall := runAsyncAdd_returns_inv r metric Hret).
  destruct (runAsyncAdd_success r metric Hall) as (m' & Hm' & _ & _ & _ & _ & _ & Hin).
  exists m'. split; [done|]. apply Hin; [done|].
  unfold lookupOutcome. by rewrite getTagFromGCE_default.
Qed.

(** X15: [Init], [Start] and [asyncAdd] together: on a processor made with
    an empty tag set, once [Init] has returned no error and [Start] has run,
    the only tags a call of [asyncAdd] can change on a metric are names of
    the configured allow-list, and each is one of zone, tags, name and
    hostname. *)
Theorem asyncAdd_after_Init_touches_only_known_tags
    (r : GceProcessor) (acc : Accumulator) (metric : Metric) (k : string) :
  allowTagsMap r = ∅ → (Init r).2 = None →
  let started := (Start (Init r).1 acc).1 in
  m_tags (w_metric (runAsyncAdd started metric).2) !! k ≠ m_tags metric !! k →
  k ∈ AllowTags r ∧ knownTag k.
Proof.
  intros Hempty Hok started Hdiff.
  assert (Hset : allowTagsMap started = list_to_set (AllowTags r)).
  { subst started. unfold Start. simpl. unfold Init in *.
    rewrite (initLoop_recorded _ _ Hok). simpl. rewrite Hempty. set_solver. }
  assert (Hk : k ∈ AllowTags r).
  { destruct (decide (k ∈ allowTagsMap started)) as [Hin|Hout].
    - rewrite Hset in Hin. by apply elem_of_list_to_set in Hin.
    - exfalso. apply Hdiff.
      apply (grows_other _ _ _ (runAsyncAdd_grows started metric)).
      by rewrite rangeKeys_elem. }
  split; [done|].
  destruct (decide (knownTag k)) as [|Hunknown]; [done|]. exfalso.
  unfold Init in Hok.
  destruct (proj2 (initLoop_error (AllowTags r)
                     (set_Log (Log r ++ ["Initializing GCE Processor"]) r)))
    as [e He]; [|congruence].
  exists k. split; [done|]. by right.
Qed.

End AsyncAddMore.

(** X10: the order in which the map of tags is visited does not show in
    the result: a call of [asyncAdd] that returns under one order of visit
    returns the same record under any other. *)
Theorem asyncAdd_result_is_independent_of_map_order
    (E1 E2 : Environment) (r : GceProcessor) (metric : Metric) (out : list Metric) :
  (@runAsyncAdd E1 r metric).1 = Returned out →
  (@runAsyncAdd E2 r metric).1 = Returned out.
Proof.
  intros Hret.
  assert (Hall := @runAsyncAdd_returns_inv E1 r metric (ex_intro _ _ Hret)).
  destruct (@runAsyncAdd_success E1 r metric Hall)
    as (m1 & Hret1 & _ & Hn1 & Hf1 & Ht1 & Hout1 & Hin1).
  destruct (@runAsyncAdd_success E2 r metric Hall)
    as (m2 & Hret2 & _ & Hn2 & Hf2 & Ht2 & Hout2 & Hin2).
  rewrite Hret2. rewrite Hret1 in Hret. injection Hret as <-.
  do 2 f_equal. apply metric_eq; try congruence.
  intros k. destruct (decide (k ∈ allowTagsMap r)) as [Hk|Hk].
  - destruct (Hall k Hk) as [v Hv]. by rewrite (Hin1 k v Hk Hv), (Hin2 k v Hk Hv).
  - by rewrite Hout1, Hout2.
Qed.

Lemma asyncAdd_result_is_independent_of_map_order_witness :
  (@runAsyncAdd reversedEnv (onGce sampleClient {[ "name"; "hostname" ]}) cpu).1
    = Returned [AddTag "hostname" "instance-1.c.my-project.internal"
                  (AddTag "name" "instance-1" cpu)].
Proof.
  apply (asyncAdd_result_is_independent_of_map_order sampleEnv reversedEnv).
  vm_compute. reflexivity.
Defined.

Lemma asyncAdd_again_changes_nothing_witness :
  (@runAsyncAdd sampleEnv (onGce sampleClient {[ "name" ]})
     (AddTag "name" "instance-1" cpu)).1
    = Returned [AddTag "name" "instance-1" cpu].
Proof.
  apply (@asyncAdd_again_changes_nothing sampleEnv (onGce sampleClient {[ "name" ]}) cpu).
  vm_compute. reflexivity.
Defined.


Lemma asyncAdd_sets_unknown_tag_to_empty_witness :
  ∃ m', (@runAsyncAdd sampleEnv (onGce sampleClient {[ "region" ]}) cpu).1
          = Returned [m']
        ∧ m_tags m' !! "region" = Some "".
Proof.
  apply (@asyncAdd_sets_unknown_tag_to_empty sampleEnv).
  - change ("region" ∈ ({[ "region" ]} : gset string)).
    apply elem_of_singleton. reflexivity.
  - unfold knownTag. intros [H|[H|[H|H]]]; discriminate H.
  - eexists. vm_compute. reflexivity.
Defined.

Lemma asyncAdd_after_Init_touches_only_known_tags_witness :
  "name" ∈ ["zone"; "name"] ∧ knownTag "name".
Proof.
  apply (@asyncAdd_after_Init_touches_only_known_tags sampleEnv
           (configured ["zone"; "name"]) [] cpu "name").
  - reflexivity.
  - vm_compute. reflexivity.
  - vm_compute. discriminate.
Defined.

(** ** [Add], [Stop] and the dispatcher field *)

